(** * Legacy app conversion ([src/utils/convert.js])

    A shallow embedding of the converter that turns a legacy app
    definition into the files of a new-style app, and the properties of
    its field, sample, index and orchestration code.

    Conventions of the model.
    - A JavaScript string is a sequence of UTF-16 code units.  The model
      covers the strings whose code units are below 256: a [string] of
      this development holds one code unit per [ascii].
    - A number is an integer in the safe range, printed in decimal.
    - A legacy definition is plain data (what a JSON document holds,
      plus [undefined]); an object keeps its properties in the order in
      which they were created, with distinct keys.
    - A plain object inherits from [Object.prototype]; inherited
      built-ins are kept apart from data in the type [Ref].
    - The objects that closures share and fill (the legacy definition,
      the arrays of lines and promises, the template contexts) live in
      the cells of a store.
    - A promise is represented by the outcome it settles to.  Its
      callbacks run after the synchronous code that created it: the
      work they do on the file system is not done during the call but
      queued in the store, one chain of jobs per task, and carried out
      afterwards, the chains interleaved in an order that the code does
      not fix.  A file written twice holds the content written last.
    - The collaborators outside this file (case helpers, [path], file
      system, template engine and template files) are parameters. *)

From Stdlib Require Import ZArith List String Ascii Bool Lia DecimalString Sorted Permutation.
Import ListNotations.
Local Open Scope string_scope.
Set Warnings "-register-all".

(** ** Errors and results

    [Stuck] is the answer of the store to a read or write of a cell that
    does not exist or does not hold what is expected; the converter only
    uses cells it has allocated, or the one it is given. *)

Inductive Error : Type :=
| TypeError (msg : string)
| IOError (path : string)
| RangeError (msg : string)
| TemplateError (msg : string)
| Stuck.

Inductive result (A : Type) : Type :=
| Ok (a : A)
| Throw (e : Error).

Arguments Ok {A} a.
Arguments Throw {A} e.

Definition bind {A B : Type} (r : result A) (k : A -> result B) : result B :=
  match r with
  | Ok a => k a
  | Throw e => Throw e
  end.

Declare Scope result_scope.
Delimit Scope result_scope with result.
Notation "x <- r ;; k" := (bind r (fun x => k))
  (at level 100, r at next level, right associativity) : result_scope.
Local Open Scope result_scope.

Fixpoint mapM {A B : Type} (f : A -> result B) (l : list A) : result (list B) :=
  match l with
  | [] => Ok []
  | x :: rest =>
      y <- f x ;;
      ys <- mapM f rest ;;
      Ok (y :: ys)
  end.

(** ** Strings *)

Definition nl : string := String (ascii_of_nat 10) EmptyString.

(** [Array.prototype.join] on an array of strings. *)
Fixpoint join (sep : string) (l : list string) : string :=
  match l with
  | [] => EmptyString
  | [s] => s
  | s :: rest => s ++ sep ++ join sep rest
  end.

(** [' '.repeat(n)]. *)
Fixpoint spaces (n : nat) : string :=
  match n with
  | O => EmptyString
  | S m => String " " (spaces m)
  end.

Fixpoint startsWith (p s : string) : bool :=
  match p, s with
  | EmptyString, _ => true
  | String a p', String b s' => Ascii.eqb a b && startsWith p' s'
  | String _ _, EmptyString => false
  end.

(** [s.includes(p)]. *)
Fixpoint includes (s p : string) : bool :=
  startsWith p s ||
  match s with
  | EmptyString => false
  | String _ s' => includes s' p
  end.

(** [String.prototype.toLowerCase] on code units below 256: the letters
    A-Z and the Latin-1 capitals (0xC0-0xDE except the multiplication
    sign 0xD7) move up by 32, every other unit stays. *)
Definition lowerUnit (c : ascii) : ascii :=
  let n := nat_of_ascii c in
  if (((65 <=? n) && (n <=? 90)) || ((192 <=? n) && (n <=? 222) && negb (n =? 215)))%nat
  then ascii_of_nat (n + 32)
  else c.

Fixpoint lowerString (s : string) : string :=
  match s with
  | EmptyString => EmptyString
  | String c s' => String (lowerUnit c) (lowerString s')
  end.

(** Upper-casing of the letters a-z (used on the directory constants only). *)
Definition upperUnit (c : ascii) : ascii :=
  let n := nat_of_ascii c in
  if ((97 <=? n) && (n <=? 122))%nat then ascii_of_nat (n - 32) else c.

Fixpoint upperString (s : string) : string :=
  match s with
  | EmptyString => EmptyString
  | String c s' => String (upperUnit c) (upperString s')
  end.

(** [Number::toString] on an integer. *)
Definition numToString (n : Z) : string :=
  NilZero.string_of_int (Z.to_int n).

(** ** Values *)

Inductive Value : Type :=
| JUndefined
| JNull
| JBool (b : bool)
| JNum (n : Z)
| JStr (s : string)
| JArr (items : list Value)
| JObj (props : list (string * Value)).

(** What a plain object inherits from [Object.prototype]. *)
Inductive Builtin : Type :=
| ObjectConstructor
| ObjectPrototype
| PrototypeMethod (name : string).

Inductive Ref : Type :=
| Data (v : Value)
| Native (b : Builtin).

Coercion Data : Value >-> Ref.

Fixpoint lookupOwn (k : string) (props : list (string * Value)) : option Value :=
  match props with
  | [] => None
  | (k', v) :: rest => if String.eqb k k' then Some v else lookupOwn k rest
  end.

Definition prototypeMethods : list string :=
  [ "__defineGetter__"; "__defineSetter__"; "hasOwnProperty";
    "__lookupGetter__"; "__lookupSetter__"; "isPrototypeOf";
    "propertyIsEnumerable"; "toString"; "valueOf"; "toLocaleString" ].

Definition inherited (k : string) : option Builtin :=
  if String.eqb k "constructor" then Some ObjectConstructor
  else if String.eqb k "__proto__" then Some ObjectPrototype
  else if existsb (String.eqb k) prototypeMethods then Some (PrototypeMethod k)
  else None.

(** [obj[k]] on a plain object: own property first, then the prototype. *)
Definition objGet (props : list (string * Value)) (k : string) : Ref :=
  match lookupOwn k props with
  | Some v => Data v
  | None =>
      match inherited k with
      | Some b => Native b
      | None => Data JUndefined
      end
  end.

(** The property names the converter reads from legacy data. *)
Inductive Field : Type :=
| f_type | f_label | f_help_text | f_required | f_placeholder | f_key
| f_fields | f_sample_result_fields
| f_triggers | f_searches | f_actions
| f_general | f_title | f_description.

Definition fieldName (f : Field) : string :=
  match f with
  | f_type => "type"
  | f_label => "label"
  | f_help_text => "help_text"
  | f_required => "required"
  | f_placeholder => "placeholder"
  | f_key => "key"
  | f_fields => "fields"
  | f_sample_result_fields => "sample_result_fields"
  | f_triggers => "triggers"
  | f_searches => "searches"
  | f_actions => "actions"
  | f_general => "general"
  | f_title => "title"
  | f_description => "description"
  end.

Definition typeName (v : Value) : string :=
  match v with
  | JUndefined => "undefined"
  | _ => "null"
  end.

(** [v.f] for one of the names above.  None of them is a member of a
    built-in prototype, so a primitive or an array answers [undefined]
    and an object answers its own property; reading from [undefined] or
    [null] throws. *)
Definition getField (v : Value) (f : Field) : result Value :=
  match v with
  | JUndefined | JNull =>
      Throw (TypeError ("Cannot read property '" ++ fieldName f ++ "' of " ++ typeName v))
  | JObj props =>
      Ok (match lookupOwn (fieldName f) props with
          | Some x => x
          | None => JUndefined
          end)
  | _ => Ok JUndefined
  end.

(** [Boolean(v)]. *)
Definition truthy (v : Value) : bool :=
  match v with
  | JUndefined | JNull => false
  | JBool b => b
  | JNum n => negb (n =? 0)%Z
  | JStr s => negb (String.eqb s EmptyString)
  | JArr _ | JObj _ => true
  end.

Definition truthyRef (r : Ref) : bool :=
  match r with
  | Data v => truthy v
  | Native _ => true
  end.

Definition hasOwn (k : string) (props : list (string * Value)) : bool :=
  match lookupOwn k props with
  | Some _ => true
  | None => false
  end.

(** [ToString].  An array joins its elements with a comma, [undefined]
    and [null] elements printing as nothing.  A plain object prints
    through the inherited [toString]; an own [toString] property is data,
    hence not callable, and [valueOf] never yields a primitive, so the
    conversion throws. *)
Fixpoint toStr (v : Value) : result string :=
  match v with
  | JUndefined => Ok "undefined"
  | JNull => Ok "null"
  | JBool true => Ok "true"
  | JBool false => Ok "false"
  | JNum n => Ok (numToString n)
  | JStr s => Ok s
  | JArr items =>
      let element (x : Value) : result string :=
        match x with
        | JUndefined | JNull => Ok EmptyString
        | _ => toStr x
        end in
      (fix joinItems (l : list Value) : result string :=
         match l with
         | [] => Ok EmptyString
         | [x] => element x
         | x :: rest =>
             s <- element x ;;
             r <- joinItems rest ;;
             Ok (s ++ "," ++ r)
         end) items
  | JObj props =>
      if hasOwn "toString" props
      then Throw (TypeError "Cannot convert object to primitive value")
      else Ok "[object Object]"
  end.

Definition builtinToString (b : Builtin) : string :=
  match b with
  | ObjectConstructor => "function Object() { [native code] }"
  | ObjectPrototype => "[object Object]"
  | PrototypeMethod name => "function " ++ name ++ "() { [native code] }"
  end.

Definition refToStr (r : Ref) : result string :=
  match r with
  | Data v => toStr v
  | Native b => Ok (builtinToString b)
  end.

(** [s.toLowerCase()] as a method call: only a string has the method. *)
Definition toLowerCase (v : Value) : result string :=
  match v with
  | JStr s => Ok (lowerString s)
  | JUndefined | JNull =>
      Throw (TypeError ("Cannot read property 'toLowerCase' of " ++ typeName v))
  | _ => Throw (TypeError "toLowerCase is not a function")
  end.

(** [_.isString] on plain data. *)
Definition isString (v : Value) : bool :=
  match v with
  | JStr _ => true
  | _ => false
  end.

(** ** Tables *)

Definition MIN_HELP_TEXT_LENGTH : nat := 10.

Definition typesMap : list (string * Value) :=
  [ ("unicode", JStr "string");
    ("textarea", JStr "text");
    ("integer", JStr "integer");
    ("float", JStr "number");
    ("boolean", JStr "boolean");
    ("datetime", JStr "datetime");
    ("file", JStr "file");
    ("password", JStr "password") ].

(** ** Field rendering *)

Definition helpTextMessage : string :=
  "(help text must be at least " ++ numToString (Z.of_nat MIN_HELP_TEXT_LENGTH) ++ " characters)".

Definition padHelpText (text : Value) : string :=
  let msg := helpTextMessage in
  match text with
  | JStr s =>
      if (String.length s <? MIN_HELP_TEXT_LENGTH)%nat
      then s ++ " " ++ msg
      else s
  | _ => msg
  end.

Definition renderProp (key value : string) : string := key ++ ": " ++ value.

Definition quote (r : Ref) : result string :=
  s <- refToStr r ;;
  Ok ("'" ++ s ++ "'").

(** The expression
    [definition.type && typesMap[definition.type.toLowerCase()] || 'string']. *)
Definition fieldType (definition : Value) : result Ref :=
  t <- getField definition f_type ;;
  if truthy t then
    lower <- toLowerCase t ;;
    let mapped := objGet typesMap lower in
    Ok (if truthyRef mapped then mapped else Data (JStr "string"))
  else Ok (Data (JStr "string")).

Definition boolLiteral (b : bool) : string := if b then "true" else "false".

(** The [props] array of [renderField], before indentation. *)
Definition fieldProps (definition key : Value) : result (list string) :=
  type <- fieldType definition ;;
  k <- quote key ;;
  label <- getField definition f_label ;;
  l <- quote label ;;
  help <- getField definition f_help_text ;;
  h <- quote (JStr (padHelpText help)) ;;
  t <- quote type ;;
  required <- getField definition f_required ;;
  let props :=
    [ renderProp "key" k;
      renderProp "label" l;
      renderProp "helpText" h;
      renderProp "type" t;
      renderProp "required" (boolLiteral (truthy required)) ] in
  placeholder <- getField definition f_placeholder ;;
  if truthy placeholder then
    p <- quote placeholder ;;
    Ok (props ++ [renderProp "placeholder" p])%list
  else Ok props.

Definition wrapField (props : list string) : string :=
  spaces 6 ++ "{" ++ nl ++
  join ("," ++ nl) (map (fun s => spaces 8 ++ s) props) ++ nl ++
  spaces 6 ++ "}".

Definition renderField (definition key : Value) : result string :=
  props <- fieldProps definition key ;;
  Ok (wrapField props).

(** ** Collections, as lodash iterates them *)

Definition digitOf (c : ascii) : option N :=
  let n := N_of_ascii c in
  if ((48 <=? n) && (n <=? 57))%N then Some (n - 48)%N else None.

Fixpoint parseDigits (acc : N) (s : string) : option N :=
  match s with
  | EmptyString => Some acc
  | String c s' =>
      match digitOf c with
      | Some d => parseDigits (10 * acc + d)%N s'
      | None => None
      end
  end.

(** A property key is an array index when it is the canonical decimal
    form of an integer below 2^32 - 1. *)
Definition arrayIndex (k : string) : option N :=
  match k with
  | EmptyString => None
  | String c rest =>
      if Ascii.eqb c "0"%char && negb (String.eqb rest EmptyString) then None
      else match parseDigits 0 k with
           | Some n => if (n <? 4294967295)%N then Some n else None
           | None => None
           end
  end.

Definition isIndexKey (k : string) : bool :=
  match arrayIndex k with
  | Some _ => true
  | None => false
  end.

Fixpoint insertIndexed {A : Type} (x : N * A) (l : list (N * A)) : list (N * A) :=
  match l with
  | [] => [x]
  | y :: rest =>
      if (fst x <=? fst y)%N then x :: l else y :: insertIndexed x rest
  end.

Definition sortIndexed {A : Type} (l : list (N * A)) : list (N * A) :=
  fold_right insertIndexed [] l.

Definition indexOrder {A : Type} (x y : N * A) : Prop := (fst x <= fst y)%N.

Fixpoint indexedProps (props : list (string * Value)) : list (N * (string * Value)) :=
  match props with
  | [] => []
  | (k, v) :: rest =>
      match arrayIndex k with
      | Some n => (n, (k, v)) :: indexedProps rest
      | None => indexedProps rest
      end
  end.

(** Own properties in enumeration order ([Object.keys]): array indices
    in ascending numeric order, then the other keys in creation order. *)
Definition ownProps (props : list (string * Value)) : list (string * Value) :=
  map snd (sortIndexed (indexedProps props)) ++
  filter (fun kv => negb (isIndexKey (fst kv))) props.

Fixpoint indexedFrom (i : Z) (items : list Value) : list (Value * Value) :=
  match items with
  | [] => []
  | x :: rest => (JNum i, x) :: indexedFrom (i + 1) rest
  end.

Definition MAX_SAFE_INTEGER : Z := 9007199254740991.

(** [isLength(value.length)] on an own [length] property. *)
Definition arrayLikeLength (props : list (string * Value)) : option Z :=
  match lookupOwn "length" props with
  | Some (JNum n) =>
      if ((0 <=? n) && (n <=? MAX_SAFE_INTEGER))%Z then Some n else None
  | _ => None
  end.

Definition unitString (c : ascii) : Value := JStr (String c EmptyString).

(** The (key, value) pairs that [_.each] and [_.map] visit, in order:
    nothing for [undefined], [null], numbers and booleans; indices for
    arrays, strings and array-like objects; own properties otherwise. *)
Definition entries (collection : Value) : list (Value * Value) :=
  match collection with
  | JArr items => indexedFrom 0 items
  | JStr s => indexedFrom 0 (map unitString (list_ascii_of_string s))
  | JObj props =>
      match arrayLikeLength props with
      | Some len =>
          map (fun i =>
                 let index := Z.of_nat i in
                 (JNum index,
                  match lookupOwn (numToString index) props with
                  | Some x => x
                  | None => JUndefined
                  end))
              (seq 0 (Z.to_nat len))
      | None => map (fun kv => (JStr (fst kv), snd kv)) (ownProps props)
      end
  | _ => []
  end.

Definition MAX_ARRAY_LENGTH : Z := 4294967295.

(** The pairs that [_.map] visits.  For an array-like object [_.map]
    first allocates [Array(length)], which throws beyond the largest
    array length. *)
Definition mapEntries (collection : Value) : result (list (Value * Value)) :=
  match collection with
  | JObj props =>
      match arrayLikeLength props with
      | Some len =>
          if (MAX_ARRAY_LENGTH <? len)%Z
          then Throw (RangeError "Invalid array length")
          else Ok (entries collection)
      | None => Ok (entries collection)
      end
  | _ => Ok (entries collection)
  end.

(** [_.isEmpty] on plain data. *)
Definition isEmpty (v : Value) : bool :=
  match v with
  | JArr items => match items with [] => true | _ => false end
  | JStr s => String.eqb s EmptyString
  | JObj props => match props with [] => true | _ => false end
  | _ => true
  end.

(** ** Sample rendering *)

Definition renderSampleField (def : Value) : result string :=
  rawType <- getField def f_type ;;
  name <- toStr rawType ;;
  let type := objGet typesMap name in
  key <- getField def f_key ;;
  k <- toStr key ;;
  t <- quote type ;;
  label <- getField def f_label ;;
  l <- quote label ;;
  Ok (spaces 6 ++ k ++ ": {" ++ nl ++
      spaces 8 ++ "type: " ++ t ++ "," ++ nl ++
      spaces 8 ++ "label: " ++ l ++ nl ++
      spaces 6 ++ "}").

Definition wrapSample (fields : list string) : string :=
  spaces 4 ++ "sample: {" ++ nl ++
  join ("," ++ nl) fields ++ nl ++
  spaces 4 ++ "}".

Definition renderSample (definition : Value) : result string :=
  samples <- getField definition f_sample_result_fields ;;
  visited <- mapEntries samples ;;
  fields <- mapM (fun kv => renderSampleField (snd kv)) visited ;;
  Ok (wrapSample fields).

(** ** Predicates used in the statements *)

(** [ToString] succeeds on [v]. *)
Definition printable (v : Value) : bool :=
  match toStr v with
  | Ok _ => true
  | Throw _ => false
  end.

Definition fieldOr (definition : Value) (f : Field) : Value :=
  match getField definition f with
  | Ok v => v
  | Throw _ => JUndefined
  end.

Definition isNullish (v : Value) : bool :=
  match v with
  | JUndefined | JNull => true
  | _ => false
  end.

(** The field definitions that [renderField] renders: an actual value
    whose [type] is falsy or a string, and whose key, label and truthy
    placeholder convert to strings. *)
Definition renderable (definition key : Value) : bool :=
  negb (isNullish definition) &&
  (negb (truthy (fieldOr definition f_type)) || isString (fieldOr definition f_type)) &&
  printable key &&
  printable (fieldOr definition f_label) &&
  (negb (truthy (fieldOr definition f_placeholder)) ||
   printable (fieldOr definition f_placeholder)).

Definition isUpperUnit (c : ascii) : bool :=
  let n := nat_of_ascii c in ((65 <=? n) && (n <=? 90))%nat.

Fixpoint hasUpper (s : string) : bool :=
  match s with
  | EmptyString => false
  | String c s' => isUpperUnit c || hasUpper s'
  end.


(** A sample field spec that carries its own [key]. *)
Definition sampleSpec (row : string * string * string) : Value :=
  let '(k, t, l) := row in
  JObj [ ("key", JStr k); ("type", JStr t); ("label", JStr l) ].


(** ** Steps, promises and the store *)

Inductive StepType : Type := trigger | search | write.

Definition stepTypeName (t : StepType) : string :=
  match t with
  | trigger => "trigger"
  | search => "search"
  | write => "write"
  end.

(** [stepNamesMap], as [_.each] walks it: legacy category, new step type. *)
Definition stepNamesMap : list (Field * StepType) :=
  [ (f_triggers, trigger); (f_searches, search); (f_actions, write) ].

(** [stepTypeMap] of [writeStep] and [dirMap] of [renderIndex]. *)
Definition dirMap (t : StepType) : string :=
  match t with
  | trigger => "triggers"
  | search => "searches"
  | write => "writes"
  end.

(** A promise, represented by the outcome it settles to. *)
Inductive Promise (A : Type) : Type :=
| Fulfilled (a : A)
| Rejected (e : Error).

Arguments Fulfilled {A} a.
Arguments Rejected {A} e.

(** [Promise.all]: fulfilled with every value when all are fulfilled,
    rejected with the reason of a rejected member otherwise (the first
    one in array order stands for the first one in time). *)
Fixpoint promiseAll {A : Type} (ps : list (Promise A)) : Promise (list A) :=
  match ps with
  | [] => Fulfilled []
  | Fulfilled a :: rest =>
      match promiseAll rest with
      | Fulfilled l => Fulfilled (a :: l)
      | Rejected e => Rejected e
      end
  | Rejected e :: _ => Rejected e
  end.

Definition Context : Type := list (string * Value).

(** [ctx[k] = v]: an existing property keeps its place, a new one goes last. *)
Fixpoint setProp (k : string) (v : Value) (ctx : Context) : Context :=
  match ctx with
  | [] => [(k, v)]
  | (k', v') :: rest =>
      if String.eqb k k' then (k, v) :: rest else (k', v') :: setProp k v rest
  end.

(** What a promise callback does on the file system: [ensureDir] makes
    a directory, [writeFile] creates a file or replaces its content. *)
Inductive Job : Type :=
| MkDir (dir : string)
| WriteFile (path content : string).

(** The jobs of one task, in the order in which its callbacks run. *)
Definition Chain : Type := list Job.

(** The store: cells for the objects the code shares between closures
    (the legacy definition passed in by reference, the arrays and context
    objects the callbacks fill), and the chains of jobs that the promises
    created so far have still to carry out. *)
Definition loc : Type := nat.

Inductive Cell : Type :=
| CData (v : Value)
| CStrings (l : list string)
| CContext (c : Context)
| CPromises (ps : list (Promise unit)).

Record Store : Type := mkStore {
  heap : list Cell;
  pending : list Chain
}.

Definition M (A : Type) : Type := Store -> result A * Store.

Definition ret {A : Type} (a : A) : M A := fun st => (Ok a, st).

Definition bindM {A B : Type} (m : M A) (k : A -> M B) : M B :=
  fun st =>
    match m st with
    | (Ok a, st') => k a st'
    | (Throw e, st') => (Throw e, st')
    end.

Notation "x <~ m ;; k" := (bindM m (fun x => k))
  (at level 100, m at next level, right associativity).

Definition lift {A : Type} (r : result A) : M A := fun st => (r, st).

Definition alloc (c : Cell) : M loc :=
  fun st => (Ok (List.length (heap st)), mkStore (heap st ++ [c]) (pending st)).

Definition load (l : loc) : M Cell :=
  fun st =>
    match nth_error (heap st) l with
    | Some c => (Ok c, st)
    | None => (Throw Stuck, st)
    end.

Fixpoint setNth (l : nat) (c : Cell) (cells : list Cell) : list Cell :=
  match cells, l with
  | [], _ => []
  | _ :: rest, O => c :: rest
  | x :: rest, S l' => x :: setNth l' c rest
  end.

Definition store (l : loc) (c : Cell) : M unit :=
  fun st =>
    if (l <? List.length (heap st))%nat
    then (Ok tt, mkStore (setNth l c (heap st)) (pending st))
    else (Throw Stuck, st).

(** A promise callback is registered: its jobs will run later. *)
Definition queue (c : Chain) : M unit :=
  fun st => (Ok tt, mkStore (heap st) (pending st ++ [c])).

Definition readData (l : loc) : M Value :=
  c <~ load l ;;
  match c with
  | CData v => ret v
  | _ => lift (Throw Stuck)
  end.

Definition readStrings (l : loc) : M (list string) :=
  c <~ load l ;;
  match c with
  | CStrings ls => ret ls
  | _ => lift (Throw Stuck)
  end.

Definition readContext (l : loc) : M Context :=
  c <~ load l ;;
  match c with
  | CContext ctx => ret ctx
  | _ => lift (Throw Stuck)
  end.

Definition readPromises (l : loc) : M (list (Promise unit)) :=
  c <~ load l ;;
  match c with
  | CPromises ps => ret ps
  | _ => lift (Throw Stuck)
  end.

(** [array.push(s)]. *)
Definition pushString (l : loc) (s : string) : M unit :=
  ls <~ readStrings l ;;
  store l (CStrings (ls ++ [s])).

Definition pushPromise (l : loc) (p : Promise unit) : M unit :=
  ps <~ readPromises l ;;
  store l (CPromises (ps ++ [p])).

Definition assign (l : loc) (k : string) (v : Value) : M unit :=
  ctx <~ readContext l ;;
  store l (CContext (setProp k v ctx)).

(** [_.each] with a callback that has effects. *)
Fixpoint forEachM {X : Type} (f : X -> M unit) (l : list X) : M unit :=
  match l with
  | [] => ret tt
  | x :: rest => _ <~ f x ;; forEachM f rest
  end.

(** ** The file system and the pending jobs *)

(** The directories made and the files with their content. *)
Record Disk : Type := mkDisk {
  dirs : list string;
  files : list (string * string)
}.

Fixpoint lookupFile (path : string) (fs : list (string * string)) : option string :=
  match fs with
  | [] => None
  | (p, c) :: rest => if String.eqb path p then Some c else lookupFile path rest
  end.

(** Writing a file replaces the content of an existing one. *)
Fixpoint setFile (path content : string) (fs : list (string * string))
  : list (string * string) :=
  match fs with
  | [] => [(path, content)]
  | (p, c) :: rest =>
      if String.eqb path p then (p, content) :: rest
      else (p, c) :: setFile path content rest
  end.

Definition fileAt (d : Disk) (path : string) : option string :=
  lookupFile path (files d).

Definition perform (j : Job) (d : Disk) : Disk :=
  match j with
  | MkDir dir => mkDisk (dir :: dirs d) (files d)
  | WriteFile path content => mkDisk (dirs d) (setFile path content (files d))
  end.

Definition performAll (order : list Job) (d : Disk) : Disk :=
  fold_left (fun d j => perform j d) order d.

(** [order] runs every job of every chain once, the jobs of one chain in
    their order, those of different chains in any order. *)
Inductive interleaving : list Chain -> list Job -> Prop :=
| interleaving_done (chains : list Chain) :
    Forall (fun c => c = []) chains -> interleaving chains []
| interleaving_step (pre : list Chain) (j : Job) (c : Chain) (post : list Chain)
                    (order : list Job) :
    interleaving (pre ++ c :: post) order ->
    interleaving (pre ++ (j :: c) :: post) (j :: order).

(** The file system [d'] is what becomes of [d] once the pending chains
    have been carried out. *)
Definition settles (chains : list Chain) (d d' : Disk) : Prop :=
  exists order, interleaving chains order /\ d' = performAll order d.

(** The paths that the jobs write. *)
Fixpoint written (order : list Job) : list string :=
  match order with
  | [] => []
  | MkDir _ :: rest => written rest
  | WriteFile path _ :: rest => path :: written rest
  end.

(** The collaborators: the case helpers of [./misc] and lodash, the
    [path] module, the template directory, and the file system and
    template engine with the outcome of each call.  The outcome of a call
    depends on its arguments only: the templates read are not among the
    files written.  A file-system call that fails leaves the file system
    as it was. *)
Class Collaborators : Type := {
  snakeCase : Value -> string;
  camelCase : Value -> string;
  capitalize : Value -> string;
  kebabCase : Value -> result string;
  pathJoin : string -> string -> string;
  pathDirname : string -> string;
  TEMPLATE_DIR : string;
  readFile : string -> result string;
  template : string -> Context -> result string;
  ensureDir : string -> result unit;
  writeFile : string -> string -> result unit
}.

Section Converter.

Context {env : Collaborators}.

Definition renderTemplate (templateFile : string) (templateContext : Context)
  : Promise string :=
  match readFile templateFile with
  | Throw e => Rejected e
  | Ok text =>
      match template text templateContext with
      | Ok content => Fulfilled content
      | Throw e => Rejected e
      end
  end.

(** [createFile]: the progress messages printed after a write are left
    out.  The directory is made first, then the file is written; both
    happen in promise callbacks, so the jobs are queued. *)
Definition createFile (content fileName dir : string) : M (Promise unit) :=
  let destFile := pathJoin dir fileName in
  match ensureDir (pathDirname destFile) with
  | Throw e => ret (Rejected e)
  | Ok _ =>
      match writeFile destFile content with
      | Throw e =>
          _ <~ queue [MkDir (pathDirname destFile)] ;;
          ret (Rejected e)
      | Ok _ =>
          _ <~ queue [MkDir (pathDirname destFile); WriteFile destFile content] ;;
          ret (Fulfilled tt)
      end
  end.

Definition renderFields (definition : Value) : result (list string) :=
  fs <- getField definition f_fields ;;
  visited <- mapEntries fs ;;
  mapM (fun kv => renderField (snd kv) (fst kv)) visited.

Definition stepContext (definition key : Value) : result Context :=
  fields <- renderFields definition ;;
  samples <- getField definition f_sample_result_fields ;;
  sample <- (if negb (isEmpty samples)
             then s <- renderSample definition ;; Ok (s ++ "," ++ nl)
             else Ok EmptyString) ;;
  lower <- toLowerCase key ;;
  Ok [ ("KEY", JStr (snakeCase key));
       ("CAMEL", JStr (camelCase key));
       ("NOUN", JStr (capitalize key));
       ("LOWER_NOUN", JStr lower);
       ("FIELDS", JStr (join ("," ++ nl) fields));
       ("SAMPLE", JStr sample) ].

Definition stepTemplateFile (type : StepType) : string :=
  pathJoin TEMPLATE_DIR ("/" ++ stepTypeName type ++ ".template.js").

Definition renderStep (type : StepType) (definition key : Value)
  : result (Promise string) :=
  templateContext <- stepContext definition key ;;
  Ok (renderTemplate (stepTemplateFile type) templateContext).

Definition stepFileName (type : StepType) (key : Value) : string :=
  dirMap type ++ "/" ++ snakeCase key ++ ".js".

(** [writeStep]: the rendering is synchronous up to the read of the
    template; [createFile] is the callback of the rendered promise, so
    what it does is queued, not done, when [writeStep] returns. *)
Definition writeStep (type : StepType) (definition key : Value) (newAppDir : string)
  : M (Promise unit) :=
  let fileName := stepFileName type key in
  p <~ lift (renderStep type definition key) ;;
  match p with
  | Fulfilled content => createFile content fileName newAppDir
  | Rejected e => ret (Rejected e)
  end.

Definition varName (v3Type : StepType) (name : Value) : string :=
  camelCase name ++ capitalize (JStr (camelCase (JStr (stepTypeName v3Type)))).

Definition importLine (v3Type : StepType) (name : Value) : string :=
  let requireFile := dirMap v3Type ++ "/" ++ snakeCase name in
  "const " ++ varName v3Type name ++ " = require('./" ++ requireFile ++ "');".

Definition mappingLine (v3Type : StepType) (name : Value) : string :=
  "[" ++ varName v3Type name ++ ".key]: " ++ varName v3Type name ++ ",".

Definition indexTemplateFile : string := pathJoin TEMPLATE_DIR "/index.template.js".

(** The callback of the inner [_.each] of [renderIndex]. *)
Definition indexStep (importLines lines : loc) (v3Type : StepType)
           (kv : Value * Value) : M unit :=
  let name := fst kv in
  _ <~ pushString importLines (importLine v3Type name) ;;
  pushString lines (mappingLine v3Type name).

(** The callback of the outer [_.each] of [renderIndex]. *)
Definition indexCategory (legacyApp importLines templateContext : loc)
           (entry : Field * StepType) : M unit :=
  let v2Type := fst entry in
  let v3Type := snd entry in
  lines <~ alloc (CStrings []) ;;
  app <~ readData legacyApp ;;
  steps <~ lift (getField app v2Type) ;;
  _ <~ forEachM (indexStep importLines lines v3Type) (entries steps) ;;
  let section := upperString (dirMap v3Type) in
  ls <~ readStrings lines ;;
  assign templateContext section (JStr (join ("," ++ nl) ls)).

(** The template context that [renderIndex] builds. *)
Definition indexContext (legacyApp : loc) : M Context :=
  importLines <~ alloc (CStrings []) ;;
  templateContext <~ alloc (CContext [ ("TRIGGERS", JStr EmptyString);
                                       ("SEARCHES", JStr EmptyString);
                                       ("WRITES", JStr EmptyString) ]) ;;
  _ <~ forEachM (indexCategory legacyApp importLines templateContext) stepNamesMap ;;
  il <~ readStrings importLines ;;
  _ <~ assign templateContext "REQUIRES" (JStr (join nl il)) ;;
  readContext templateContext.

Definition renderIndex (legacyApp : loc) : M (Promise string) :=
  templateContext <~ indexContext legacyApp ;;
  ret (renderTemplate indexTemplateFile templateContext).

Definition writeIndex (legacyApp : loc) (newAppDir : string) : M (Promise unit) :=
  p <~ renderIndex legacyApp ;;
  match p with
  | Fulfilled content => createFile content "index.js" newAppDir
  | Rejected e => ret (Rejected e)
  end.

Definition packageTemplateFile : string := pathJoin TEMPLATE_DIR "/package.template.json".

Definition packageContext (app : Value) : result Context :=
  general <- getField app f_general ;;
  title <- getField general f_title ;;
  name <- kebabCase title ;;
  description <- getField general f_description ;;
  Ok [ ("NAME", JStr name); ("DESCRIPTION", description) ].

Definition renderPackageJson (legacyApp : loc) : M (Promise string) :=
  app <~ readData legacyApp ;;
  templateContext <~ lift (packageContext app) ;;
  ret (renderTemplate packageTemplateFile templateContext).

Definition writePackageJson (legacyApp : loc) (newAppDir : string) : M (Promise unit) :=
  p <~ renderPackageJson legacyApp ;;
  match p with
  | Fulfilled content => createFile content "package.json" newAppDir
  | Rejected e => ret (Rejected e)
  end.

(** The callback of the inner [_.each] of [convertApp]. *)
Definition scheduleStep (promises : loc) (newAppDir : string) (v3Type : StepType)
           (kv : Value * Value) : M unit :=
  let key := fst kv in
  let definition := snd kv in
  p <~ writeStep v3Type definition key newAppDir ;;
  pushPromise promises p.

(** The callback of the outer [_.each] of [convertApp]. *)
Definition scheduleCategory (legacyApp promises : loc) (newAppDir : string)
           (entry : Field * StepType) : M unit :=
  let v2Type := fst entry in
  let v3Type := snd entry in
  app <~ readData legacyApp ;;
  steps <~ lift (getField app v2Type) ;;
  forEachM (scheduleStep promises newAppDir v3Type) (entries steps).

Definition convertApp (legacyApp : loc) (newAppDir : string)
  : M (Promise (list unit)) :=
  promises <~ alloc (CPromises []) ;;
  _ <~ forEachM (scheduleCategory legacyApp promises newAppDir) stepNamesMap ;;
  p <~ writeIndex legacyApp newAppDir ;;
  _ <~ pushPromise promises p ;;
  p <~ writePackageJson legacyApp newAppDir ;;
  _ <~ pushPromise promises p ;;
  ps <~ readPromises promises ;;
  ret (promiseAll ps).

(** *** The conversion as a list of tasks

    What each scheduled task settles to and queues, as functions of the
    legacy definition; the properties below relate them to the code
    above. *)

(** The chain of a [createFile] that succeeds. *)
Definition fileChain (destFile content : string) : Chain :=
  [MkDir (pathDirname destFile); WriteFile destFile content].

(** What [createFile] settles to, and the chain it queues. *)
Definition fileOutcome (content fileName dir : string) : Promise unit * list Chain :=
  let destFile := pathJoin dir fileName in
  match ensureDir (pathDirname destFile) with
  | Throw e => (Rejected e, [])
  | Ok _ =>
      match writeFile destFile content with
      | Throw e => (Rejected e, [[MkDir (pathDirname destFile)]])
      | Ok _ => (Fulfilled tt, [fileChain destFile content])
      end
  end.

(** [rendered.then(content => createFile(content, fileName, dir))]. *)
Definition thenCreate (rendered : Promise string) (fileName dir : string)
  : Promise unit * list Chain :=
  match rendered with
  | Fulfilled content => fileOutcome content fileName dir
  | Rejected e => (Rejected e, [])
  end.

Definition Task : Type := result (Promise unit * list Chain).

Definition stepTask (dir : string) (type : StepType) (kv : Value * Value) : Task :=
  rendered <- renderStep type (snd kv) (fst kv) ;;
  Ok (thenCreate rendered (stepFileName type (fst kv)) dir).

(** The keys of a step category, in the order in which they are visited. *)
Definition stepKeys (app : Value) (v2Type : Field) : list Value :=
  map fst (entries (fieldOr app v2Type)).

Definition indexContextOf (app : Value) : Context :=
  let mappings (v2Type : Field) (v3Type : StepType) :=
    JStr (join ("," ++ nl) (map (mappingLine v3Type) (stepKeys app v2Type))) in
  let imports (v2Type : Field) (v3Type : StepType) :=
    map (importLine v3Type) (stepKeys app v2Type) in
  [ ("TRIGGERS", mappings f_triggers trigger);
    ("SEARCHES", mappings f_searches search);
    ("WRITES", mappings f_actions write);
    ("REQUIRES",
     JStr (join nl (imports f_triggers trigger ++
                    imports f_searches search ++
                    imports f_actions write)%list)) ].

Definition indexTask (dir : string) (app : Value) : Task :=
  Ok (thenCreate (renderTemplate indexTemplateFile (indexContextOf app))
                 "index.js" dir).

Definition packageTask (dir : string) (app : Value) : Task :=
  templateContext <- packageContext app ;;
  Ok (thenCreate (renderTemplate packageTemplateFile templateContext)
                 "package.json" dir).

Definition categoryTasks (dir : string) (app : Value) (entry : Field * StepType)
  : list Task :=
  map (stepTask dir (snd entry)) (entries (fieldOr app (fst entry))).

(** Every task of a conversion, in scheduling order. *)
Definition tasks (dir : string) (app : Value) : list Task :=
  (flat_map (categoryTasks dir app) stepNamesMap ++
   [ indexTask dir app; packageTask dir app ])%list.

(** The synchronous part of every task succeeds: each step renders its
    fields, sample and names, and the manifest context can be built. *)
Definition rendersAll (app : Value) : Prop :=
  (forall entry kv,
      In entry stepNamesMap ->
      In kv (entries (fieldOr app (fst entry))) ->
      exists templateContext, stepContext (snd kv) (fst kv) = Ok templateContext) /\
  (exists templateContext, packageContext app = Ok templateContext).

(** Scheduling runs the tasks in order and stops at the first one that
    throws: the promises created, the chains queued, and the exception
    if there was one. *)
Fixpoint runTasks (ts : list Task) : list (Promise unit) * list Chain * option Error :=
  match ts with
  | [] => ([], [], None)
  | Throw e :: _ => ([], [], Some e)
  | Ok (p, ws) :: rest =>
      let '(ps, ws', err) := runTasks rest in
      (p :: ps, (ws ++ ws')%list, err)
  end.

End Converter.

(** Each task in [ts] was scheduled and returned the promise at the same
    place of [ps]. *)
Definition paired (ts : list Task) (ps : list (Promise unit)) : Prop :=
  Forall2 (fun t p => exists w, t = Ok (p, w)) ts ps.





(** The synchronous outcome of a loop that stopped with or without an
    exception. *)
Definition outcomeOf (err : option Error) : result unit :=
  match err with
  | None => Ok tt
  | Some e => Throw e
  end.

(** ** Sample collaborators

    Simple stand-ins for the helpers, the template engine and the file
    system, used to run the converter on concrete definitions. *)
Module Demo.

Definition keyText (v : Value) : string :=
  match toStr v with
  | Ok s => s
  | Throw _ => EmptyString
  end.

Definition capitalizeText (v : Value) : string :=
  match lowerString (keyText v) with
  | EmptyString => EmptyString
  | String c rest => String (upperUnit c) rest
  end.

(** Prints the template text followed by every context entry. *)
Definition printTemplate (text : string) (ctx : Context) : result string :=
  Ok (text ++ concat EmptyString
                (map (fun kv => nl ++ fst kv ++ "=" ++ keyText (snd kv)) ctx)).

(** Every template exists and holds its own name; every write succeeds. *)
Definition env : Collaborators := {|
  snakeCase := keyText;
  camelCase := keyText;
  capitalize := capitalizeText;
  kebabCase := toStr;
  pathJoin := fun dir file => dir ++ "/" ++ file;
  pathDirname := fun path => path;
  TEMPLATE_DIR := "scaffold/convert";
  readFile := fun path => Ok ("// " ++ path);
  template := printTemplate;
  ensureDir := fun _ => Ok tt;
  writeFile := fun _ _ => Ok tt
|}.

(** The same, with no template on disk. *)
Definition envMissing : Collaborators := {|
  snakeCase := keyText;
  camelCase := keyText;
  capitalize := capitalizeText;
  kebabCase := toStr;
  pathJoin := fun dir file => dir ++ "/" ++ file;
  pathDirname := fun path => path;
  TEMPLATE_DIR := "scaffold/convert";
  readFile := fun path => Throw (IOError path);
  template := printTemplate;
  ensureDir := fun _ => Ok tt;
  writeFile := fun _ _ => Ok tt
|}.

Definition field (key label : string) : string * Value :=
  (key, JObj [("label", JStr label); ("type", JStr "unicode")]).

Definition step (fields : list (string * Value)) : Value :=
  JObj [("fields", JObj fields)].

(** One trigger, one search and one action. *)
Definition app : Value :=
  JObj [ ("general", JObj [("title", JStr "demo"); ("description", JStr "A demo")]);
         ("triggers", JObj [("contact", step [field "id" "Id"; field "tag" "Tag"])]);
         ("searches", JObj [("person", step [field "name" "Name"])]);
         ("actions", JObj [("note", step [])]) ].

Definition initial : Store := mkStore [CData app] [].

(** A definition with one trigger and no [general] section. *)
Definition appWithoutGeneral : Value :=
  JObj [ ("triggers", JObj [("contact", step [field "id" "Id"])]) ].




End Demo.

(** ** Predicates used in the further properties *)

(** The values of [typesMap]. *)
Definition mappedTypes : list string :=
  [ "string"; "text"; "integer"; "number"; "boolean"; "datetime"; "file"; "password" ].

(** The sample field specs that [renderSampleField] renders: an actual
    value whose [type], [key] and [label] convert to strings. *)
Definition sampleRenderable (def : Value) : bool :=
  negb (isNullish def) &&
  printable (fieldOr def f_type) &&
  printable (fieldOr def f_key) &&
  printable (fieldOr def f_label).

(** A task issues at most one file write, and exactly one when it
    resolves. *)
Definition oneFile (t : Task) : Prop :=
  forall p ws,
    t = Ok (p, ws) ->
    (List.length (written (List.concat ws)) <= 1)%nat /\
    (p = Fulfilled tt -> List.length (written (List.concat ws)) = 1).

(** The number of steps of a definition, over its three categories. *)
Definition stepCount (app : Value) : nat :=
  List.length (stepKeys app f_triggers) +
  List.length (stepKeys app f_searches) +
  List.length (stepKeys app f_actions).

(** * Properties *)

(** ** Strings *)

Lemma length_append (s t : string) :
  String.length (s ++ t) = String.length s + String.length t.
Proof.
  induction s as [| c s IH]; simpl; [reflexivity | now rewrite IH].
Qed.

Lemma append_assoc (s t u : string) : (s ++ t) ++ u = s ++ t ++ u.
Proof.
  induction s as [| c s IH]; simpl; [reflexivity | now rewrite IH].
Qed.

Lemma append_empty_r (s : string) : s ++ EmptyString = s.
Proof.
  induction s as [| c s IH]; simpl; [reflexivity | now rewrite IH].
Qed.

Lemma startsWith_append (p s : string) : startsWith p (p ++ s) = true.
Proof.
  induction p as [| c p IH]; simpl; [reflexivity |].
  now rewrite Ascii.eqb_refl, IH.
Qed.

Lemma includes_append (a p b : string) : includes (a ++ p ++ b) p = true.
Proof.
  induction a as [| c a IH].
  - change (includes (p ++ b) p = true).
    pose proof (startsWith_append p b) as H.
    destruct (p ++ b); simpl; rewrite H; reflexivity.
  - simpl. rewrite IH. apply orb_true_r.
Qed.


(** ** Help text (C3, C10) *)

Lemma helpTextMessage_eq :
  helpTextMessage = "(help text must be at least 10 characters)".
Proof. reflexivity. Qed.

Lemma padHelpText_other (text : Value) :
  isString text = false -> padHelpText text = helpTextMessage.
Proof.
  destruct text; try reflexivity. discriminate.
Qed.

Lemma padHelpText_short (s : string) :
  String.length s < 10 -> padHelpText (JStr s) = s ++ " " ++ helpTextMessage.
Proof.
  intros Hlt. unfold padHelpText, MIN_HELP_TEXT_LENGTH.
  destruct (Nat.ltb_spec (String.length s) 10); [reflexivity | lia].
Qed.

Lemma padHelpText_long (s : string) :
  10 <= String.length s -> padHelpText (JStr s) = s.
Proof.
  intros Hge. unfold padHelpText, MIN_HELP_TEXT_LENGTH.
  destruct (Nat.ltb_spec (String.length s) 10); [lia | reflexivity].
Qed.

(** C3.  [padHelpText] returns exactly the fixed message for every input
    that is not a string, the input followed by a space and the message
    for every string shorter than 10 code units, and the input unchanged
    for every string of length 10 or more. *)
Theorem padHelpText_cases :
  (forall text : Value,
      isString text = false ->
      padHelpText text = "(help text must be at least 10 characters)") /\
  (forall s : string,
      String.length s < 10 ->
      padHelpText (JStr s) =
      s ++ " " ++ "(help text must be at least 10 characters)") /\
  (forall s : string,
      10 <= String.length s ->
      padHelpText (JStr s) = s).
Proof.
  rewrite <- helpTextMessage_eq.
  split; [exact padHelpText_other |].
  split; [exact padHelpText_short | exact padHelpText_long].
Qed.

Lemma padHelpText_cases_witness :
  padHelpText JUndefined = "(help text must be at least 10 characters)" /\
  padHelpText (JNum 42) = "(help text must be at least 10 characters)" /\
  padHelpText (JStr "hi") = "hi (help text must be at least 10 characters)" /\
  padHelpText (JStr "this is long enough") = "this is long enough".
Proof.
  destruct padHelpText_cases as [Hother [Hshort Hlong]].
  split; [| split; [| split]].
  - apply Hother. reflexivity.
  - apply Hother. reflexivity.
  - apply (Hshort "hi"). simpl. lia.
  - apply (Hlong "this is long enough"). simpl. lia.
Defined.

Lemma padHelpText_length (x : Value) : 10 <= String.length (padHelpText x).
Proof.
  unfold padHelpText, MIN_HELP_TEXT_LENGTH.
  destruct x; try (rewrite helpTextMessage_eq; simpl; lia).
  destruct (Nat.ltb_spec (String.length s) 10) as [Hlt | Hge]; [| exact Hge].
  rewrite !length_append, helpTextMessage_eq. simpl. lia.
Qed.

(** C10.  [padHelpText] is idempotent: its output is a string of at
    least 10 code units, which a second pass returns unchanged. *)
Theorem padHelpText_idempotent (x : Value) :
  padHelpText (JStr (padHelpText x)) = padHelpText x /\
  10 <= String.length (padHelpText x).
Proof.
  split; [| apply padHelpText_length].
  apply padHelpText_long, padHelpText_length.
Qed.

(** ** The field type mapping (C2) *)

Lemma lowerUnit_not_upper (c : ascii) : isUpperUnit (lowerUnit c) = false.
Proof.
  destruct c as [[] [] [] [] [] [] [] []]; reflexivity.
Qed.

Lemma lowerString_not_upper (s : string) : hasUpper (lowerString s) = false.
Proof.
  induction s as [| c s IH]; simpl; [reflexivity |].
  now rewrite lowerUnit_not_upper, IH.
Qed.

Lemma lowerString_neq (s m : string) :
  hasUpper m = true -> String.eqb (lowerString s) m = false.
Proof.
  intros Hm. apply String.eqb_neq. intros E.
  pose proof (lowerString_not_upper s) as H. rewrite E, Hm in H. discriminate.
Qed.

(** After lower-casing, the only inherited names left are [constructor]
    and [__proto__]: every method of the prototype has a capital. *)
Lemma inherited_lower (s : string) :
  lowerString s <> "constructor" ->
  lowerString s <> "__proto__" ->
  inherited (lowerString s) = None.
Proof.
  intros Hc Hp. unfold inherited.
  apply String.eqb_neq in Hc. apply String.eqb_neq in Hp.
  rewrite Hc, Hp. unfold prototypeMethods, existsb.
  rewrite !lowerString_neq by reflexivity. reflexivity.
Qed.

Lemma typesMap_truthy (k : string) (v : Value) :
  lookupOwn k typesMap = Some v -> truthy v = true.
Proof.
  unfold typesMap. simpl.
  repeat (destruct (String.eqb k _); [intros E; injection E as <-; reflexivity |]).
  discriminate.
Qed.

Lemma lowerString_empty (s : string) : lowerString s = EmptyString -> s = EmptyString.
Proof.
  destruct s; [reflexivity | discriminate].
Qed.

(** The mapping is exact on the table, whatever the letter case of the
    token: a token whose lower-case form is a key of the table maps to
    that key's value. *)
Lemma fieldType_table (definition : Value) (s : string) (v : Value) :
  getField definition f_type = Ok (JStr s) ->
  lookupOwn (lowerString s) typesMap = Some v ->
  fieldType definition = Ok (Data v).
Proof.
  intros Hget Hlook. unfold fieldType. rewrite Hget. simpl.
  destruct (String.eqb_spec s EmptyString) as [-> | Hne]; [discriminate |].
  simpl. unfold objGet. rewrite Hlook. simpl.
  now rewrite (typesMap_truthy _ _ Hlook).
Qed.

Lemma fieldType_table_values :
  forall s : string,
    (lowerString s = "unicode" -> fieldType (JObj [("type", JStr s)]) = Ok (Data (JStr "string"))) /\
    (lowerString s = "textarea" -> fieldType (JObj [("type", JStr s)]) = Ok (Data (JStr "text"))) /\
    (lowerString s = "integer" -> fieldType (JObj [("type", JStr s)]) = Ok (Data (JStr "integer"))) /\
    (lowerString s = "float" -> fieldType (JObj [("type", JStr s)]) = Ok (Data (JStr "number"))) /\
    (lowerString s = "boolean" -> fieldType (JObj [("type", JStr s)]) = Ok (Data (JStr "boolean"))) /\
    (lowerString s = "datetime" -> fieldType (JObj [("type", JStr s)]) = Ok (Data (JStr "datetime"))) /\
    (lowerString s = "file" -> fieldType (JObj [("type", JStr s)]) = Ok (Data (JStr "file"))) /\
    (lowerString s = "password" -> fieldType (JObj [("type", JStr s)]) = Ok (Data (JStr "password"))).
Proof.
  intros s.
  repeat match goal with
         | |- _ /\ _ => split
         end;
    intros E; apply (fieldType_table _ s); try reflexivity; rewrite E; reflexivity.
Qed.

Example fieldType_UNICODE :
  fieldType (JObj [("type", JStr "UNICODE")]) = Ok (Data (JStr "string")) /\
  fieldType (JObj [("type", JStr "unicode")]) = Ok (Data (JStr "string")) /\
  fieldType (JObj [("type", JStr "DateTime")]) = Ok (Data (JStr "datetime")).
Proof. repeat split. Qed.

(** A missing, [null] or otherwise falsy type maps to ["string"]. *)
Lemma fieldType_falsy (definition t : Value) :
  getField definition f_type = Ok t ->
  truthy t = false ->
  fieldType definition = Ok (Data (JStr "string")).
Proof.
  intros Hget Hf. unfold fieldType. rewrite Hget. simpl. now rewrite Hf.
Qed.

(** A token outside the table maps to ["string"], provided its
    lower-case form is not one of the two inherited names. *)
Lemma fieldType_default (definition : Value) (s : string) :
  getField definition f_type = Ok (JStr s) ->
  lookupOwn (lowerString s) typesMap = None ->
  lowerString s <> "constructor" ->
  lowerString s <> "__proto__" ->
  fieldType definition = Ok (Data (JStr "string")).
Proof.
  intros Hget Hlook Hc Hp. unfold fieldType. rewrite Hget. simpl.
  destruct (negb (String.eqb s EmptyString)); [| reflexivity].
  simpl. unfold objGet. rewrite Hlook, (inherited_lower s Hc Hp). reflexivity.
Qed.

(** C2.  The token [constructor] is absent from the table, yet its mapped
    type is not ["string"]: the table lookup reaches the constructor that
    the table object inherits, which is truthy, so the default is not
    taken and the rendered type is the text of a native function.  The
    same happens in any letter case, and with [__proto__]. *)
Theorem fieldType_inherited_name :
  lookupOwn "constructor" typesMap = None /\
  fieldType (JObj [("type", JStr "constructor")]) = Ok (Native ObjectConstructor) /\
  fieldType (JObj [("type", JStr "Constructor")]) = Ok (Native ObjectConstructor) /\
  fieldType (JObj [("type", JStr "__proto__")]) = Ok (Native ObjectPrototype) /\
  renderField (JObj [("type", JStr "constructor")]) (JStr "id") =
  Ok (wrapField [ "key: 'id'";
                  "label: 'undefined'";
                  "helpText: '(help text must be at least 10 characters)'";
                  "type: 'function Object() { [native code] }'";
                  "required: false" ]).
Proof. repeat split. Qed.

(** ** Which field definitions render (C1) *)

Lemma getField_fieldOr (definition : Value) (f : Field) :
  isNullish definition = false ->
  getField definition f = Ok (fieldOr definition f).
Proof.
  intros Hn. unfold fieldOr. destruct definition; try reflexivity; discriminate.
Qed.

Lemma getField_nullish (definition : Value) (f : Field) :
  isNullish definition = true ->
  exists e, getField definition f = Throw e.
Proof.
  intros Hn. destruct definition; try discriminate; simpl; eexists; reflexivity.
Qed.

(** None of the names read from legacy data is inherited from
    [Object.prototype]: on an object, [getField] is the plain lookup. *)
Lemma fieldName_not_inherited (f : Field) : inherited (fieldName f) = None.
Proof. destruct f; reflexivity. Qed.

Lemma getField_objGet (props : list (string * Value)) (f : Field) :
  objGet props (fieldName f) = Data (fieldOr (JObj props) f).
Proof.
  unfold objGet, fieldOr. simpl. rewrite fieldName_not_inherited.
  destruct (lookupOwn (fieldName f) props); reflexivity.
Qed.

Lemma typesMap_strings (k : string) (v : Value) :
  lookupOwn k typesMap = Some v -> exists s, v = JStr s.
Proof.
  unfold typesMap. simpl.
  repeat (destruct (String.eqb k _); [intros E; injection E as <-; eexists; reflexivity |]).
  discriminate.
Qed.

Lemma objGet_typesMap_printable (k : string) :
  exists s, refToStr (objGet typesMap k) = Ok s.
Proof.
  unfold objGet. destruct (lookupOwn k typesMap) as [v |] eqn:E.
  - destruct (typesMap_strings _ _ E) as [s ->]. simpl. eauto.
  - destruct (inherited k); simpl; eauto.
Qed.

Lemma fieldType_printable (definition : Value) (r : Ref) :
  fieldType definition = Ok r -> exists s, refToStr r = Ok s.
Proof.
  unfold fieldType.
  destruct (getField definition f_type) as [t | e]; simpl; [| discriminate].
  destruct (truthy t).
  - destruct (toLowerCase t) as [lower | e]; simpl; [| discriminate].
    intros E. injection E as <-.
    destruct (truthyRef (objGet typesMap lower)).
    + apply objGet_typesMap_printable.
    + simpl. eauto.
  - intros E. injection E as <-. simpl. eauto.
Qed.

(** [fieldType] succeeds exactly when the type is falsy or a string. *)
Lemma fieldType_ok_iff (definition : Value) :
  isNullish definition = false ->
  (exists r, fieldType definition = Ok r) <->
  negb (truthy (fieldOr definition f_type)) || isString (fieldOr definition f_type) = true.
Proof.
  intros Hn. unfold fieldType. rewrite (getField_fieldOr _ _ Hn). simpl.
  destruct (fieldOr definition f_type) as [| | b | n | s | items | props]; simpl;
    try (split; [reflexivity | eauto]).
  - destruct b; simpl; split; eauto; try discriminate. intros [r H]. discriminate.
  - destruct (n =? 0)%Z; simpl; split; eauto; try discriminate. intros [r H]. discriminate.
  - rewrite orb_true_r. split; [reflexivity | intros _].
    destruct (negb (String.eqb s EmptyString)); eauto.
  - split; [intros [r H]; discriminate | discriminate].
  - split; [intros [r H]; discriminate | discriminate].
Qed.

Lemma quote_ok_iff (v : Value) :
  (exists s, quote v = Ok s) <-> printable v = true.
Proof.
  unfold quote, printable. simpl. destruct (toStr v); simpl; split; eauto; try discriminate.
  intros [s H]. discriminate.
Qed.

Lemma fieldProps_ok_iff (definition key : Value) :
  (exists props, fieldProps definition key = Ok props) <->
  renderable definition key = true.
Proof.
  unfold renderable.
  destruct (isNullish definition) eqn:Hn.
  - simpl. split; [| discriminate]. intros [ps H].
    unfold fieldProps, fieldType in H.
    destruct (getField_nullish definition f_type Hn) as [e He].
    rewrite He in H. discriminate.
  - simpl negb. rewrite andb_true_l.
    pose proof (fieldType_ok_iff definition Hn) as HT.
    unfold fieldProps. rewrite !(getField_fieldOr _ _ Hn).
    destruct (fieldType definition) as [r | e] eqn:ET.
    + destruct (fieldType_printable _ _ ET) as [ts Hts].
      assert (Hty : negb (truthy (fieldOr definition f_type))
                    || isString (fieldOr definition f_type) = true)
        by (apply HT; eauto).
      rewrite Hty. simpl.
      unfold quote at 1. simpl refToStr. unfold printable at 1.
      destruct (toStr key) as [k | e]; simpl; [| split; [intros [ps H] |]; discriminate].
      unfold quote at 1. simpl refToStr. unfold printable at 1.
      destruct (toStr (fieldOr definition f_label)) as [l | e]; simpl;
        [| split; [intros [ps H] |]; discriminate].
      unfold quote at 1. rewrite Hts. simpl.
      destruct (truthy (fieldOr definition f_placeholder)); simpl.
      * unfold quote, printable. simpl refToStr.
        destruct (toStr (fieldOr definition f_placeholder)); simpl;
          [split; eauto | split; [intros [ps H] |]; discriminate].
      * split; eauto.
    + simpl. split; [intros [ps H]; discriminate |].
      intros H. apply andb_true_iff in H as [H _].
      apply andb_true_iff in H as [H _]. apply andb_true_iff in H as [H _].
      apply HT in H as [r Hr]. discriminate.
Qed.

Lemma renderField_ok_iff (definition key : Value) :
  (exists fragment, renderField definition key = Ok fragment) <->
  renderable definition key = true.
Proof.
  rewrite <- fieldProps_ok_iff. unfold renderField.
  destruct (fieldProps definition key) as [ps | e]; simpl; split; eauto.
  - intros [f H]. discriminate.
  - intros [ps H]. discriminate.
Qed.

(** C1, as the code has it.  [renderField] returns a fragment exactly for
    the renderable definitions: the definition is an actual value, its
    [type] is absent, falsy or a string, and the key, the label and a
    truthy placeholder convert to strings.  [help_text] and [required]
    may have any shape.  On any other definition it throws. *)
Theorem renderField_total_on_renderable (definition key : Value) :
  (renderable definition key = true ->
   exists fragment, renderField definition key = Ok fragment) /\
  (renderable definition key = false ->
   exists e, renderField definition key = Throw e).
Proof.
  split.
  - apply renderField_ok_iff.
  - intros Hno. destruct (renderField definition key) as [fragment | e] eqn:E; [| eauto].
    assert (Hyes : renderable definition key = true)
      by (apply renderField_ok_iff; eauto).
    congruence.
Qed.

Lemma renderField_total_on_renderable_witness :
  exists fragment,
    renderField
      (JObj [ ("type", JStr "nonsense"); ("label", JNum 7);
              ("help_text", JArr [JNull]); ("required", JStr "yes");
              ("placeholder", JBool true) ])
      (JStr "id") = Ok fragment.
Proof.
  apply (proj1 (renderField_total_on_renderable _ _)). reflexivity.
Defined.

(** C1, as stated, fails: a definition whose [type] is the number 42
    makes [renderField] throw instead of returning a fragment. *)
Lemma renderField_aborts_on_numeric_type :
  ~ (exists fragment,
        renderField (JObj [("type", JNum 42); ("label", JStr "Id")]) (JStr "id")
        = Ok fragment).
Proof.
  intros [fragment E]. discriminate E.
Qed.

Example renderField_numeric_type :
  renderField (JObj [("type", JNum 42)]) (JStr "id") =
  Throw (TypeError "toLowerCase is not a function").
Proof. reflexivity. Qed.

Example renderField_label_with_own_toString :
  renderField (JObj [("label", JObj [("toString", JStr "x")])]) (JStr "id") =
  Throw (TypeError "Cannot convert object to primitive value").
Proof. reflexivity. Qed.

(** ** The rendered property list (C4) *)

Lemma fieldProps_shape (definition key : Value) (props : list string) :
  fieldProps definition key = Ok props ->
  exists k l t r,
    toStr key = Ok k /\
    toStr (fieldOr definition f_label) = Ok l /\
    fieldType definition = Ok r /\ refToStr r = Ok t /\
    let base :=
      [ "key: '" ++ k ++ "'";
        "label: '" ++ l ++ "'";
        "helpText: '" ++ padHelpText (fieldOr definition f_help_text) ++ "'";
        "type: '" ++ t ++ "'";
        "required: " ++ boolLiteral (truthy (fieldOr definition f_required)) ] in
    (truthy (fieldOr definition f_placeholder) = true ->
     exists p,
       toStr (fieldOr definition f_placeholder) = Ok p /\
       props = List.app base ["placeholder: '" ++ p ++ "'"]) /\
    (truthy (fieldOr definition f_placeholder) = false -> props = base).
Proof.
  intros H.
  destruct (isNullish definition) eqn:Hn.
  { unfold fieldProps, fieldType in H.
    destruct (getField_nullish definition f_type Hn) as [e He].
    rewrite He in H. discriminate. }
  unfold fieldProps in H. rewrite !(getField_fieldOr _ _ Hn) in H.
  destruct (fieldType definition) as [r | e] eqn:ET; [| discriminate].
  simpl in H. unfold quote in H. simpl refToStr in H.
  destruct (toStr key) as [k | e]; [| discriminate]. simpl in H.
  destruct (toStr (fieldOr definition f_label)) as [l | e]; [| discriminate].
  simpl in H.
  destruct (refToStr r) as [t | e] eqn:Er; [| discriminate]. simpl in H.
  exists k, l, t, r. do 4 (split; [first [reflexivity | assumption] |]).
  simpl. unfold renderProp in H.
  destruct (truthy (fieldOr definition f_placeholder)).
  - destruct (toStr (fieldOr definition f_placeholder)) as [p | e]; [| discriminate].
    simpl in H. injection H as <-. split; [| discriminate].
    intros _. exists p. split; reflexivity.
  - injection H as <-. split; [discriminate | reflexivity].
Qed.

(** The text of a fragment with the five fixed properties. *)
Lemma wrapField_five (k l h t r : string) :
  wrapField [ "key: '" ++ k ++ "'"; "label: '" ++ l ++ "'"; "helpText: '" ++ h ++ "'";
              "type: '" ++ t ++ "'"; "required: " ++ r ] =
  "      {" ++ nl ++
  "        key: '" ++ k ++ "'," ++ nl ++
  "        label: '" ++ l ++ "'," ++ nl ++
  "        helpText: '" ++ h ++ "'," ++ nl ++
  "        type: '" ++ t ++ "'," ++ nl ++
  "        required: " ++ r ++ nl ++
  "      }".
Proof.
  unfold wrapField. cbn [map join spaces]. rewrite !append_assoc. reflexivity.
Qed.

(** The text of a fragment that ends with a placeholder. *)
Lemma wrapField_six (k l h t r p : string) :
  wrapField [ "key: '" ++ k ++ "'"; "label: '" ++ l ++ "'"; "helpText: '" ++ h ++ "'";
              "type: '" ++ t ++ "'"; "required: " ++ r; "placeholder: '" ++ p ++ "'" ] =
  "      {" ++ nl ++
  "        key: '" ++ k ++ "'," ++ nl ++
  "        label: '" ++ l ++ "'," ++ nl ++
  "        helpText: '" ++ h ++ "'," ++ nl ++
  "        type: '" ++ t ++ "'," ++ nl ++
  "        required: " ++ r ++ "," ++ nl ++
  "        placeholder: '" ++ p ++ "'" ++ nl ++
  "      }".
Proof.
  unfold wrapField. cbn [map join spaces]. rewrite !append_assoc. reflexivity.
Qed.

(** C4.  The text of a fragment returned by [renderField]: an opening
    brace, then one line each for key, label, helpText, type and
    required, in that order, separated by commas, then the closing
    brace; when the placeholder is truthy, and only then, one more line
    follows the required line, the quoted placeholder, which is the last
    line before the closing brace.  [required] is printed as [true] when
    the input is truthy and as [false] otherwise, so as [false] when the
    property is absent.  The fragments of the examples are as
    described. *)
Theorem renderField_property_list :
  (forall (definition key : Value) (fragment : string),
      renderField definition key = Ok fragment ->
      exists k l t r,
        toStr key = Ok k /\
        toStr (fieldOr definition f_label) = Ok l /\
        fieldType definition = Ok r /\ refToStr r = Ok t /\
        let required :=
          if truthy (fieldOr definition f_required) then "true" else "false" in
        let upToRequired :=
          "      {" ++ nl ++
          "        key: '" ++ k ++ "'," ++ nl ++
          "        label: '" ++ l ++ "'," ++ nl ++
          "        helpText: '" ++ padHelpText (fieldOr definition f_help_text) ++ "'," ++ nl ++
          "        type: '" ++ t ++ "'," ++ nl ++
          "        required: " ++ required in
        (truthy (fieldOr definition f_placeholder) = true ->
         exists p,
           toStr (fieldOr definition f_placeholder) = Ok p /\
           fragment =
           upToRequired ++ "," ++ nl ++
           "        placeholder: '" ++ p ++ "'" ++ nl ++
           "      }") /\
        (truthy (fieldOr definition f_placeholder) = false ->
         fragment = upToRequired ++ nl ++ "      }")) /\
  (forall props : list (string * Value),
      lookupOwn "required" props = None ->
      truthy (fieldOr (JObj props) f_required) = false) /\
  (renderField (JObj [("required", JUndefined)]) (JStr "foo") =
   Ok ("      {" ++ nl ++
       "        key: 'foo'," ++ nl ++
       "        label: 'undefined'," ++ nl ++
       "        helpText: '(help text must be at least 10 characters)'," ++ nl ++
       "        type: 'string'," ++ nl ++
       "        required: false" ++ nl ++
       "      }") /\
   exists fragment,
     renderField (JObj [("required", JUndefined)]) (JStr "foo") = Ok fragment /\
     includes fragment "required: false" = true /\
     includes fragment "key: 'foo'" = true /\
     includes fragment "placeholder" = false) /\
  renderField (JObj [("placeholder", JStr "e.g. 123")]) (JStr "bar") =
  Ok ("      {" ++ nl ++
      "        key: 'bar'," ++ nl ++
      "        label: 'undefined'," ++ nl ++
      "        helpText: '(help text must be at least 10 characters)'," ++ nl ++
      "        type: 'string'," ++ nl ++
      "        required: false," ++ nl ++
      "        placeholder: 'e.g. 123'" ++ nl ++
      "      }") /\
  (forall required : Value,
      In required [ JBool true; JNum 1; JStr "no"; JObj []; JArr [] ] ->
      exists fragment,
        renderField (JObj [("required", required)]) (JStr "foo") = Ok fragment /\
        includes fragment "required: true" = true /\
        includes fragment "required: false" = false) /\
  (forall required : Value,
      In required [ JBool false; JNum 0; JStr EmptyString; JNull; JUndefined ] ->
      exists fragment,
        renderField (JObj [("required", required)]) (JStr "foo") = Ok fragment /\
        includes fragment "required: false" = true /\
        includes fragment "required: true" = false).
Proof.
  split; [| split; [| split; [| split; [| split]]]].
  - intros definition key fragment H. unfold renderField in H.
    destruct (fieldProps definition key) as [props |] eqn:EP; [| discriminate].
    simpl in H. injection H as <-.
    destruct (fieldProps_shape _ _ _ EP) as (k & l & t & r & Hk & Hl & Hr & Ht & Hp & Hn).
    exists k, l, t, r. repeat (split; [assumption |]). cbv zeta.
    unfold boolLiteral in Hp, Hn. split.
    + intros Htr. destruct (Hp Htr) as (p & Hps & ->). exists p.
      split; [assumption |]. cbn [List.app]. rewrite wrapField_six.
      rewrite !append_assoc. reflexivity.
    + intros Hfa. rewrite (Hn Hfa). rewrite wrapField_five.
      rewrite !append_assoc. reflexivity.
  - intros props H. unfold fieldOr. simpl. rewrite H. reflexivity.
  - split; [reflexivity |]. eexists. split; [reflexivity |]. repeat split.
  - reflexivity.
  - intros required Hin. simpl in Hin.
    repeat (destruct Hin as [<- | Hin];
            [eexists; split; [reflexivity | split; reflexivity] |]).
    contradiction.
  - intros required Hin. simpl in Hin.
    repeat (destruct Hin as [<- | Hin];
            [eexists; split; [reflexivity | split; reflexivity] |]).
    contradiction.
Qed.

Lemma renderField_property_list_witness :
  exists fragment,
    renderField (JObj [("required", JBool true); ("placeholder", JStr "e.g. 123")])
                (JStr "foo") = Ok fragment /\
    fragment =
    "      {" ++ nl ++
    "        key: 'foo'," ++ nl ++
    "        label: 'undefined'," ++ nl ++
    "        helpText: '(help text must be at least 10 characters)'," ++ nl ++
    "        type: 'string'," ++ nl ++
    "        required: true," ++ nl ++
    "        placeholder: 'e.g. 123'" ++ nl ++
    "      }".
Proof.
  eexists. split; [reflexivity |].
  destruct renderField_property_list as [Hshape _].
  destruct (Hshape (JObj [("required", JBool true); ("placeholder", JStr "e.g. 123")])
                   (JStr "foo") _ eq_refl)
    as (k & l & t & r & Hk & Hl & Hr & Ht & Hp & _).
  destruct (Hp eq_refl) as (p & Hps & Hfragment).
  injection Hk as <-. injection Hl as <-. injection Hr as <-. injection Ht as <-.
  injection Hps as <-. exact Hfragment.
Defined.

(** ** Sample rendering (C5) *)

Lemma mapM_Forall2 {A B : Type} (f : A -> result B) (l : list A) (ys : list B) :
  mapM f l = Ok ys -> Forall2 (fun x y => f x = Ok y) l ys.
Proof.
  revert ys. induction l as [| x l IH]; simpl; intros ys H.
  - injection H as <-. constructor.
  - destruct (f x) as [y |] eqn:Ex; [| discriminate]. simpl in H.
    destruct (mapM f l) as [ys' |]; [| discriminate]. simpl in H.
    injection H as <-. constructor; [assumption | now apply IH].
Qed.




Lemma mapEntries_ok (collection : Value) (visited : list (Value * Value)) :
  mapEntries collection = Ok visited -> visited = entries collection.
Proof.
  unfold mapEntries. destruct collection; try (intros H; injection H as <-; reflexivity).
  destruct (arrayLikeLength props) as [len |].
  - destruct (MAX_ARRAY_LENGTH <? len)%Z; [discriminate |].
    intros H. injection H as <-. reflexivity.
  - intros H. injection H as <-. reflexivity.
Qed.





(** ** The store *)

Local Open Scope list_scope.

Lemma nth_error_mid {A : Type} (pre : list A) (c : A) (post : list A) (l : nat) :
  List.length pre = l -> nth_error (pre ++ c :: post) l = Some c.
Proof.
  intros <-. induction pre as [| x pre IH]; simpl; [reflexivity | exact IH].
Qed.

Lemma setNth_mid (pre : list Cell) (c c' : Cell) (post : list Cell) (l : nat) :
  List.length pre = l -> setNth l c' (pre ++ c :: post) = pre ++ c' :: post.
Proof.
  intros <-. induction pre as [| x pre IH]; simpl; [reflexivity | now rewrite IH].
Qed.

Lemma length_mid {A : Type} (pre : list A) (c : A) (post : list A) (l : nat) :
  List.length pre = l -> (l <? List.length (pre ++ c :: post))%nat = true.
Proof.
  intros <-. apply Nat.ltb_lt. rewrite length_app. simpl. lia.
Qed.

Lemma load_mid (st : Store) (pre : list Cell) (c : Cell) (post : list Cell) (l : loc) :
  heap st = pre ++ c :: post -> List.length pre = l ->
  load l st = (Ok c, st).
Proof.
  intros Hh Hl. unfold load. now rewrite Hh, (nth_error_mid _ _ _ _ Hl).
Qed.

Lemma store_mid (st : Store) (pre : list Cell) (c c' : Cell) (post : list Cell) (l : loc) :
  heap st = pre ++ c :: post -> List.length pre = l ->
  store l c' st = (Ok tt, mkStore (pre ++ c' :: post) (pending st)).
Proof.
  intros Hh Hl. unfold store.
  now rewrite Hh, (length_mid _ _ _ _ Hl), (setNth_mid _ _ _ _ _ Hl).
Qed.

Lemma readData_at (st : Store) (h rest : list Cell) (l : loc) (app : Value) :
  heap st = h ++ rest -> nth_error h l = Some (CData app) ->
  readData l st = (Ok app, st).
Proof.
  intros Hh Hl. unfold readData, bindM, load.
  rewrite Hh, nth_error_app1 by (apply nth_error_Some; congruence).
  now rewrite Hl.
Qed.

Lemma readStrings_mid (st : Store) pre ls post (l : loc) :
  heap st = pre ++ CStrings ls :: post -> List.length pre = l ->
  readStrings l st = (Ok ls, st).
Proof.
  intros Hh Hl. unfold readStrings, bindM. now rewrite (load_mid _ _ _ _ _ Hh Hl).
Qed.

Lemma readContext_mid (st : Store) pre ctx post (l : loc) :
  heap st = pre ++ CContext ctx :: post -> List.length pre = l ->
  readContext l st = (Ok ctx, st).
Proof.
  intros Hh Hl. unfold readContext, bindM. now rewrite (load_mid _ _ _ _ _ Hh Hl).
Qed.

Lemma readPromises_mid (st : Store) pre ps post (l : loc) :
  heap st = pre ++ CPromises ps :: post -> List.length pre = l ->
  readPromises l st = (Ok ps, st).
Proof.
  intros Hh Hl. unfold readPromises, bindM. now rewrite (load_mid _ _ _ _ _ Hh Hl).
Qed.

Lemma pushString_mid (st : Store) pre ls post (l : loc) (s : string) :
  heap st = pre ++ CStrings ls :: post -> List.length pre = l ->
  pushString l s st = (Ok tt, mkStore (pre ++ CStrings (ls ++ [s]) :: post) (pending st)).
Proof.
  intros Hh Hl. unfold pushString, bindM.
  now rewrite (readStrings_mid _ _ _ _ _ Hh Hl), (store_mid _ _ _ _ _ _ Hh Hl).
Qed.

Lemma pushPromise_mid (st : Store) pre ps post (l : loc) (p : Promise unit) :
  heap st = pre ++ CPromises ps :: post -> List.length pre = l ->
  pushPromise l p st = (Ok tt, mkStore (pre ++ CPromises (ps ++ [p]) :: post) (pending st)).
Proof.
  intros Hh Hl. unfold pushPromise, bindM.
  now rewrite (readPromises_mid _ _ _ _ _ Hh Hl), (store_mid _ _ _ _ _ _ Hh Hl).
Qed.

Lemma assign_mid (st : Store) pre ctx post (l : loc) (k : string) (v : Value) :
  heap st = pre ++ CContext ctx :: post -> List.length pre = l ->
  assign l k v st = (Ok tt, mkStore (pre ++ CContext (setProp k v ctx) :: post) (pending st)).
Proof.
  intros Hh Hl. unfold assign, bindM.
  now rewrite (readContext_mid _ _ _ _ _ Hh Hl), (store_mid _ _ _ _ _ _ Hh Hl).
Qed.

(** ** The file system *)

Lemma lookupFile_setFile_same (path content : string) (fs : list (string * string)) :
  lookupFile path (setFile path content fs) = Some content.
Proof.
  induction fs as [| [p c] fs IH]; simpl.
  - now rewrite String.eqb_refl.
  - destruct (String.eqb path p) eqn:E; simpl; rewrite E; [reflexivity | exact IH].
Qed.

Lemma lookupFile_setFile_other (path other content : string)
      (fs : list (string * string)) :
  path <> other -> lookupFile path (setFile other content fs) = lookupFile path fs.
Proof.
  intros Hne. induction fs as [| [p c] fs IH]; simpl.
  - destruct (String.eqb_spec path other); [contradiction | reflexivity].
  - destruct (String.eqb other p) eqn:E; simpl.
    + apply String.eqb_eq in E. subst p.
      destruct (String.eqb_spec path other); [contradiction | reflexivity].
    + destruct (String.eqb path p); [reflexivity | exact IH].
Qed.

Lemma written_In (order : list Job) (path : string) :
  In path (written order) <-> exists content, In (WriteFile path content) order.
Proof.
  induction order as [| [dir | p c] order IH]; simpl.
  - split; [contradiction | intros [c []]].
  - split.
    + intros H. apply IH in H as [c H]. exists c. now right.
    + intros [c [H | H]]; [discriminate |]. apply IH. eauto.
  - split.
    + intros [<- | H]; [exists c; now left |].
      apply IH in H as [c' H]. exists c'. now right.
    + intros [c' [H | H]]; [injection H as -> _; now left |].
      right. apply IH. eauto.
Qed.

Lemma written_app (a b : list Job) : written (a ++ b) = written a ++ written b.
Proof.
  induction a as [| [dir | p c] a IH]; simpl; [reflexivity | exact IH | now rewrite IH].
Qed.

(** After the jobs have run in a given order, a path that none of them
    writes holds what it held, and a path that some of them write holds
    the content of one of those writes. *)
Lemma fileAt_performAll (order : list Job) (d : Disk) (path : string) :
  (~ In path (written order) -> fileAt (performAll order d) path = fileAt d path) /\
  (In path (written order) ->
   exists content,
     In (WriteFile path content) order /\
     fileAt (performAll order d) path = Some content).
Proof.
  revert d. induction order as [| j order IH]; intros d.
  - split; [reflexivity | contradiction].
  - change (performAll (j :: order) d) with (performAll order (perform j d)).
    destruct (IH (perform j d)) as [Hno Hyes].
    destruct (in_dec string_dec path (written order)) as [Hin | Hout].
    + split.
      * intros H. exfalso. apply H. destruct j; simpl; [exact Hin | now right].
      * intros _. destruct (Hyes Hin) as (c & Hc & Hf). exists c.
        split; [now right | exact Hf].
    + rewrite (Hno Hout). destruct j as [dir | p c]; simpl.
      * split; [reflexivity | contradiction].
      * split.
        -- intros H. unfold fileAt. simpl. apply lookupFile_setFile_other.
           intros ->. apply H. now left.
        -- intros [-> | H]; [| contradiction]. exists c. split; [now left |].
           unfold fileAt. simpl. apply lookupFile_setFile_same.
Qed.

Lemma dirs_performAll (order : list Job) (d : Disk) (dir : string) :
  In dir (dirs (performAll order d)) <-> In (MkDir dir) order \/ In dir (dirs d).
Proof.
  revert d. induction order as [| j order IH]; intros d.
  - simpl. tauto.
  - change (performAll (j :: order) d) with (performAll order (perform j d)).
    rewrite IH. destruct j as [x | p c]; simpl.
    + split.
      * intros [H | [-> | H]]; auto.
      * intros [[H | H] | H]; auto. injection H as ->. auto.
    + split.
      * intros [H | H]; auto.
      * intros [[H | H] | H]; auto. discriminate.
Qed.

Lemma concat_empty (chains : list Chain) :
  Forall (fun c => c = []) chains -> List.concat chains = [].
Proof.
  induction 1 as [| c chains -> _ IH]; [reflexivity | exact IH].
Qed.

(** An interleaving runs the jobs of the chains, each once. *)
Lemma interleaving_Permutation (chains : list Chain) (order : list Job) :
  interleaving chains order -> Permutation (List.concat chains) order.
Proof.
  induction 1 as [chains H | pre j c post order _ IH].
  - now rewrite (concat_empty _ H).
  - rewrite concat_app in *. simpl in *.
    apply Permutation_sym, Permutation_cons_app, Permutation_sym. exact IH.
Qed.

Lemma interleaving_skip (chains : list Chain) (order : list Job) :
  interleaving chains order -> interleaving ([] :: chains) order.
Proof.
  induction 1 as [chains H | pre j c post order _ IH].
  - constructor. now constructor.
  - exact (interleaving_step ([] :: pre) j c post order IH).
Qed.

(** Running the chains one after the other is one of the interleavings. *)
Lemma interleaving_sequential (chains : list Chain) :
  interleaving chains (List.concat chains).
Proof.
  induction chains as [| c chains IH]; [now repeat constructor |].
  simpl. induction c as [| j c IHc]; [now apply interleaving_skip |].
  exact (interleaving_step [] j c chains _ IHc).
Qed.

Lemma settles_sequential (chains : list Chain) (d : Disk) :
  settles chains d (performAll (List.concat chains) d).
Proof.
  exists (List.concat chains). split; [apply interleaving_sequential | reflexivity].
Qed.

Lemma written_Permutation (a b : list Job) (path : string) :
  Permutation a b -> In path (written a) -> In path (written b).
Proof.
  intros Hp Hin. apply written_In in Hin as [c Hc]. apply written_In.
  exists c. exact (Permutation_in _ Hp Hc).
Qed.

(** Whatever the interleaving, a path that no pending job writes is left
    as it is. *)
Lemma settles_untouched (chains : list Chain) (d d' : Disk) (path : string) :
  settles chains d d' ->
  ~ In path (written (List.concat chains)) ->
  fileAt d' path = fileAt d path.
Proof.
  intros (order & Hi & ->) Hout. apply fileAt_performAll.
  intros Hin. apply Hout.
  exact (written_Permutation _ _ _ (Permutation_sym (interleaving_Permutation _ _ Hi)) Hin).
Qed.

(** Whatever the interleaving, a path that a pending job writes holds
    in the end the content of one of the jobs that write it. *)
Lemma settles_written (chains : list Chain) (d d' : Disk) (path : string) :
  settles chains d d' ->
  In path (written (List.concat chains)) ->
  exists content,
    In (WriteFile path content) (List.concat chains) /\ fileAt d' path = Some content.
Proof.
  intros (order & Hi & ->) Hin.
  pose proof (interleaving_Permutation _ _ Hi) as Hp.
  destruct (proj2 (fileAt_performAll order d path) (written_Permutation _ _ _ Hp Hin))
    as (c & Hc & Hf).
  exists c. split; [exact (Permutation_in _ (Permutation_sym Hp) Hc) | exact Hf].
Qed.


Lemma settles_dirs (chains : list Chain) (d d' : Disk) (dir : string) :
  settles chains d d' ->
  In (MkDir dir) (List.concat chains) ->
  In dir (dirs d').
Proof.
  intros (order & Hi & ->) Hin. apply dirs_performAll. left.
  exact (Permutation_in _ (interleaving_Permutation _ _ Hi) Hin).
Qed.

(** ** Enumeration order of own properties *)

Lemma indexedProps_plain (props : list (string * Value)) :
  (forall kv, In kv props -> isIndexKey (fst kv) = false) ->
  indexedProps props = [].
Proof.
  induction props as [| [k v] props IH]; intros H; [reflexivity |]. simpl.
  pose proof (H (k, v) (or_introl eq_refl)) as Hk. unfold isIndexKey in Hk.
  simpl in Hk. destruct (arrayIndex k); [discriminate |].
  apply IH. intros kv Hin. apply H. now right.
Qed.

Lemma filter_all {A : Type} (f : A -> bool) (l : list A) :
  (forall x, In x l -> f x = true) -> filter f l = l.
Proof.
  induction l as [| x l IH]; intros H; [reflexivity |]. simpl.
  rewrite (H x (or_introl eq_refl)). f_equal. apply IH.
  intros y Hy. apply H. now right.
Qed.

Lemma ownProps_plain (props : list (string * Value)) :
  (forall kv, In kv props -> isIndexKey (fst kv) = false) ->
  ownProps props = props.
Proof.
  intros H. unfold ownProps. rewrite (indexedProps_plain props H). simpl.
  apply filter_all. intros kv Hin. now rewrite (H kv Hin).
Qed.

Lemma insertIndexed_HdRel {A : Type} (a x : N * A) (l : list (N * A)) :
  indexOrder a x -> HdRel indexOrder a l -> HdRel indexOrder a (insertIndexed x l).
Proof.
  intros Hax Hal. destruct l as [| y l]; simpl.
  - now constructor.
  - destruct (fst x <=? fst y)%N; constructor; [exact Hax |].
    now inversion Hal.
Qed.

Lemma insertIndexed_sorted {A : Type} (x : N * A) (l : list (N * A)) :
  Sorted indexOrder l -> Sorted indexOrder (insertIndexed x l).
Proof.
  induction 1 as [| y l Hs IH Hd]; simpl.
  - repeat constructor.
  - destruct (N.leb_spec (fst x) (fst y)) as [Hle | Hlt].
    + constructor; [now constructor | now constructor].
    + constructor; [exact IH |].
      apply insertIndexed_HdRel; [unfold indexOrder; lia | exact Hd].
Qed.

(** The array indices of an object are enumerated in ascending order. *)
Lemma sortIndexed_sorted {A : Type} (l : list (N * A)) :
  Sorted indexOrder (sortIndexed l).
Proof.
  induction l as [| x l IH]; simpl; [constructor | now apply insertIndexed_sorted].
Qed.

(** ** The index context (C6) *)

Section IndexFacts.

Context {env : Collaborators}.

(** The inner loop of [renderIndex]: one import line and one mapping
    line per step, appended in visiting order. *)
Lemma index_inner_loop (v3Type : StepType) (kvs : list (Value * Value)) :
  forall (st : Store) (h : list Cell) (il : list string) (mid : list Cell)
         (ls : list string),
    heap st = h ++ CStrings il :: mid ++ [CStrings ls] ->
    forEachM (indexStep (List.length h) (List.length h + 1 + List.length mid) v3Type)
             kvs st =
    (Ok tt,
     mkStore (h ++ CStrings (il ++ map (importLine v3Type) (map fst kvs))
                :: mid ++ [CStrings (ls ++ map (mappingLine v3Type) (map fst kvs))])
             (pending st)).
Proof.
  induction kvs as [| kv kvs IH]; intros st h il mid ls Hh.
  - simpl. unfold ret. rewrite !app_nil_r. destruct st as [hp d]. simpl in *.
    now rewrite Hh.
  - cbn [forEachM]. unfold bindM at 1.
    unfold indexStep at 1. unfold bindM at 1.
    rewrite (pushString_mid st h il (mid ++ [CStrings ls]) _ _ Hh eq_refl).
    set (st1 := mkStore _ _).
    assert (H1 : heap st1 =
                 (h ++ CStrings (il ++ [importLine v3Type (fst kv)]) :: mid)
                   ++ CStrings ls :: []).
    { unfold st1. simpl. rewrite <- app_assoc. reflexivity. }
    rewrite (pushString_mid st1 _ _ _ (List.length h + 1 + List.length mid) _ H1)
      by (rewrite length_app; simpl; lia).
    set (st2 := mkStore _ _).
    rewrite (IH st2 h (il ++ [importLine v3Type (fst kv)]) mid
                (ls ++ [mappingLine v3Type (fst kv)])).
    + unfold st2, st1. simpl. rewrite <- !app_assoc. reflexivity.
    + unfold st2. simpl. rewrite <- app_assoc. reflexivity.
Qed.

Lemma index_category (legacyApp : loc) (app : Value) (entry : Field * StepType) :
  forall (st : Store) (h : list Cell) (il : list string) (ctx : Context)
         (extra : list Cell),
    heap st = h ++ CStrings il :: CContext ctx :: extra ->
    nth_error h legacyApp = Some (CData app) ->
    isNullish app = false ->
    indexCategory legacyApp (List.length h) (List.length h + 1) entry st =
    (Ok tt,
     mkStore
       (h ++ CStrings (il ++ map (importLine (snd entry)) (stepKeys app (fst entry)))
          :: CContext
               (setProp (upperString (dirMap (snd entry)))
                        (JStr (join ("," ++ nl)%string
                                    (map (mappingLine (snd entry))
                                         (stepKeys app (fst entry)))))
                        ctx)
          :: extra ++ [CStrings (map (mappingLine (snd entry))
                                     (stepKeys app (fst entry)))])
       (pending st)).
Proof.
  intros st h il ctx extra Hh Happ Hn.
  unfold indexCategory, stepKeys. unfold bindM at 1. unfold alloc at 1.
  set (st1 := mkStore _ _).
  assert (H1 : heap st1 = h ++ CStrings il :: (CContext ctx :: extra) ++ [CStrings []]).
  { unfold st1. simpl. rewrite Hh, <- app_assoc. reflexivity. }
  unfold bindM at 1.
  rewrite (readData_at st1 h _ legacyApp app H1 Happ).
  unfold bindM at 1. unfold lift at 1. rewrite (getField_fieldOr _ _ Hn).
  unfold bindM at 1.
  replace (List.length (heap st))
    with (List.length h + 1 + List.length (CContext ctx :: extra))
    by (rewrite Hh, length_app; simpl; lia).
  rewrite (index_inner_loop (snd entry) _ st1 h il (CContext ctx :: extra) [] H1).
  set (st2 := mkStore _ _).
  set (il' := il ++ _) in *. set (ls := [] ++ _) in *.
  assert (H2 : heap st2 = (h ++ CStrings il' :: CContext ctx :: extra) ++ CStrings ls :: []).
  { unfold st2. simpl. rewrite <- app_assoc. reflexivity. }
  unfold bindM at 1.
  rewrite (readStrings_mid st2 _ _ _ _ H2)
    by (rewrite length_app; simpl; lia).
  assert (H3 : heap st2 = (h ++ [CStrings il']) ++ CContext ctx :: extra ++ [CStrings ls]).
  { unfold st2. simpl. rewrite <- app_assoc. reflexivity. }
  rewrite (assign_mid st2 _ _ _ _ _ _ H3) by (rewrite length_app; simpl; lia).
  unfold st2, st1. simpl. rewrite <- app_assoc. reflexivity.
Qed.

(** [renderIndex] builds the context [indexContextOf]; it allocates its
    arrays and context after the cells that exist, and queues no job. *)
Lemma indexContext_run (legacyApp : loc) (app : Value) (st : Store) :
  nth_error (heap st) legacyApp = Some (CData app) ->
  isNullish app = false ->
  exists new,
    indexContext legacyApp st =
    (Ok (indexContextOf app), mkStore (heap st ++ new) (pending st)).
Proof.
  intros Happ Hn. unfold indexContext.
  unfold bindM at 1. unfold alloc at 1.
  unfold bindM at 1. unfold alloc at 1. cbn [heap pending].
  set (init := [ ("TRIGGERS", JStr EmptyString); ("SEARCHES", JStr EmptyString);
                 ("WRITES", JStr EmptyString) ]).
  set (st1 := mkStore _ _).
  assert (H1 : heap st1 = heap st ++ CStrings [] :: CContext init :: []).
  { unfold st1. simpl. rewrite <- app_assoc. reflexivity. }
  replace (List.length (heap st ++ [CStrings []])) with (List.length (heap st) + 1)
    by (rewrite length_app; simpl; lia).
  unfold stepNamesMap. cbn [forEachM].
  unfold bindM at 1. unfold bindM at 1.
  rewrite (index_category legacyApp app _ st1 (heap st) _ _ _ H1 Happ Hn).
  set (st2 := mkStore _ _).
  unfold bindM at 1.
  rewrite (index_category legacyApp app _ st2 (heap st) _ _ _ eq_refl Happ Hn).
  set (st3 := mkStore _ _).
  unfold bindM at 1.
  rewrite (index_category legacyApp app _ st3 (heap st) _ _ _ eq_refl Happ Hn).
  unfold ret at 1.
  match goal with
  | |- context [mkStore (heap st ++ CStrings ?il :: CContext ?c :: ?ex) ?d] =>
      set (lines := il); set (ctx := c); set (extra := ex); set (d4 := d)
  end.
  set (st4 := mkStore _ _).
  unfold bindM at 1.
  rewrite (readStrings_mid st4 (heap st) lines _ _ eq_refl eq_refl).
  unfold bindM at 1.
  assert (H4 : heap st4 = (heap st ++ [CStrings lines]) ++ CContext ctx :: extra).
  { unfold st4. simpl. rewrite <- app_assoc. reflexivity. }
  rewrite (assign_mid st4 _ _ _ (List.length (heap st) + 1) _ _ H4)
    by (rewrite length_app; simpl; lia).
  set (st5 := mkStore _ _).
  rewrite (readContext_mid st5 (heap st ++ [CStrings lines]) _ _
             (List.length (heap st) + 1) eq_refl)
    by (rewrite length_app; simpl; lia).
  eexists. unfold st5. simpl. rewrite <- app_assoc. simpl.
  f_equal. unfold indexContextOf, ctx, lines, init. simpl.
  rewrite !app_assoc. reflexivity.
Qed.

(** C6, as the code has it.  The index is the index template rendered
    against a context that lists, per category, one mapping line per step and, in [REQUIRES],
    one import line per step, categories in the order triggers,
    searches, actions, and steps in the order in which the category is
    enumerated; the variable of a step is its camel-cased key followed
    by the capitalized camel-cased step type.  The enumeration order
    of a mapping is its insertion order when no step key is an array
    index (and the mapping has no numeric [length]); the lines are then
    the pointwise image of the mapping, so a reordering of the mapping
    reorders them identically.  In general the array indices come first,
    in ascending order, then the other keys in insertion order. *)
Theorem renderIndex_order :
  (forall (legacyApp : loc) (app : Value) (st : Store),
      nth_error (heap st) legacyApp = Some (CData app) ->
      isNullish app = false ->
      let keys := stepKeys app in
      fst (renderIndex legacyApp st) =
      Ok (renderTemplate indexTemplateFile
         [ ("TRIGGERS",
            JStr (join ("," ++ nl)%string (map (mappingLine trigger) (keys f_triggers))));
           ("SEARCHES",
            JStr (join ("," ++ nl)%string (map (mappingLine search) (keys f_searches))));
           ("WRITES",
            JStr (join ("," ++ nl)%string (map (mappingLine write) (keys f_actions))));
           ("REQUIRES",
            JStr (join nl (map (importLine trigger) (keys f_triggers) ++
                           map (importLine search) (keys f_searches) ++
                           map (importLine write) (keys f_actions)))) ])) /\
  (forall (v3Type : StepType) (name : Value),
      varName v3Type name =
      (camelCase name ++
       capitalize (JStr (camelCase (JStr (stepTypeName v3Type)))))%string /\
      mappingLine v3Type name =
      ("[" ++ varName v3Type name ++ ".key]: " ++
       varName v3Type name ++ ",")%string /\
      importLine v3Type name =
      ("const " ++ varName v3Type name ++ " = require('./" ++
       (dirMap v3Type ++ "/" ++ snakeCase name) ++ "');")%string) /\
  (forall (app : Value) (v2Type : Field) (props : list (string * Value)),
      fieldOr app v2Type = JObj props ->
      arrayLikeLength props = None ->
      (forall kv, In kv props -> isIndexKey (fst kv) = false) ->
      stepKeys app v2Type = map (fun kv => JStr (fst kv)) props) /\
  (forall (app : Value) (v2Type : Field) (props : list (string * Value)),
      fieldOr app v2Type = JObj props ->
      arrayLikeLength props = None ->
      let indices := sortIndexed (indexedProps props) in
      let others := filter (fun kv => negb (isIndexKey (fst kv))) props in
      stepKeys app v2Type =
      map (fun kv => JStr (fst kv)) (map snd indices ++ others) /\
      Sorted indexOrder indices).
Proof.
  split; [| split; [| split]].
  - intros legacyApp app st Happ Hn keys. unfold renderIndex, bindM.
    destruct (indexContext_run legacyApp app st Happ Hn) as [new ->].
    reflexivity.
  - intros v3Type name. repeat split.
  - intros app v2Type props Hf Hlen Hidx. unfold stepKeys. rewrite Hf.
    unfold entries. rewrite Hlen, (ownProps_plain props Hidx), map_map.
    reflexivity.
  - intros app v2Type props Hf Hlen indices others. split.
    + unfold stepKeys. rewrite Hf. unfold entries. rewrite Hlen, map_map.
      reflexivity.
    + apply sortIndexed_sorted.
Qed.

End IndexFacts.

Lemma renderIndex_order_witness :
  fst (@renderIndex Demo.env 0 Demo.initial) =
  Ok (@renderTemplate Demo.env (@indexTemplateFile Demo.env)
        [ ("TRIGGERS", JStr "[contactTrigger.key]: contactTrigger,");
          ("SEARCHES", JStr "[personSearch.key]: personSearch,");
          ("WRITES", JStr "[noteWrite.key]: noteWrite,");
          ("REQUIRES",
           JStr ("const contactTrigger = require('./triggers/contact');" ++ nl ++
                 "const personSearch = require('./searches/person');" ++ nl ++
                 "const noteWrite = require('./writes/note');")%string) ]).
Proof.
  destruct (@renderIndex_order Demo.env) as [Hctx _].
  exact (Hctx 0 Demo.app Demo.initial eq_refl eq_refl).
Defined.

(** C6, as stated, fails: a step key that is an array index is visited
    before the keys inserted ahead of it, and two mappings that differ
    only in the order of such keys give the same index. *)
Lemma renderIndex_not_insertion_order :
  let triggers := [("b", JObj []); ("1", JObj [])] in
  let swapped := [("1", JObj []); ("b", JObj [])] in
  map fst triggers = ["b"; "1"] /\
  stepKeys (JObj [("triggers", JObj triggers)]) f_triggers = [JStr "1"; JStr "b"] /\
  stepKeys (JObj [("triggers", JObj swapped)]) f_triggers = [JStr "1"; JStr "b"] /\
  fst (@indexContext Demo.env 0 (mkStore [CData (JObj [("triggers", JObj triggers)])] [])) =
  fst (@indexContext Demo.env 0 (mkStore [CData (JObj [("triggers", JObj swapped)])] [])) /\
  exists ctx requires,
    fst (@indexContext Demo.env 0 (mkStore [CData (JObj [("triggers", JObj triggers)])] []))
    = Ok ctx /\
    lookupOwn "REQUIRES" ctx = Some (JStr requires) /\
    requires = ("const 1Trigger = require('./triggers/1');" ++ nl ++
                "const bTrigger = require('./triggers/b');")%string.
Proof.
  repeat split. eexists. eexists. repeat split.
Qed.

(** ** Scheduling (C7, C8) *)

Lemma includes_startsWith (p s : string) :
  startsWith p s = true -> exists b, s = (p ++ b)%string.
Proof.
  revert s. induction p as [| c p IH]; intros s H.
  - exists s. reflexivity.
  - destruct s as [| d s]; [discriminate |]. simpl in H.
    apply andb_true_iff in H as [Hc Hp]. apply Ascii.eqb_eq in Hc as ->.
    destruct (IH s Hp) as [b ->]. exists b. reflexivity.
Qed.

Lemma includes_inv (s p : string) :
  includes s p = true -> exists a b, s = (a ++ p ++ b)%string.
Proof.
  induction s as [| c s IH]; intros H.
  - simpl in H. rewrite orb_false_r in H.
    destruct (includes_startsWith _ _ H) as [b ->]. exists EmptyString, b. reflexivity.
  - simpl in H. apply orb_true_iff in H as [H | H].
    + destruct (includes_startsWith _ _ H) as [b ->]. exists EmptyString, b. reflexivity.
    + destruct (IH H) as (a & b & ->). exists (String c a), b. reflexivity.
Qed.

Lemma includes_trans (s t u : string) :
  includes s t = true -> includes t u = true -> includes s u = true.
Proof.
  intros Hst Htu.
  destruct (includes_inv _ _ Hst) as (a & b & ->).
  destruct (includes_inv _ _ Htu) as (c & d & ->).
  replace (a ++ (c ++ u ++ d) ++ b)%string with ((a ++ c) ++ u ++ (d ++ b))%string
    by (rewrite !append_assoc; reflexivity).
  apply includes_append.
Qed.

Lemma includes_refl (s : string) : includes s s = true.
Proof.
  rewrite <- (append_empty_r s) at 1. apply (includes_append EmptyString s EmptyString).
Qed.

(** Every member of a joined list occurs in the result. *)
Lemma includes_join (sep : string) (l : list string) (x : string) :
  In x l -> includes (join sep l) x = true.
Proof.
  induction l as [| y l IH]; intros Hin; [contradiction |].
  destruct l as [| z l].
  - destruct Hin as [-> | []]. apply includes_refl.
  - change (join sep (y :: z :: l)) with (y ++ sep ++ join sep (z :: l))%string.
    destruct Hin as [-> | Hin].
    + apply (includes_append EmptyString x).
    + apply includes_trans with (join sep (z :: l)); [| now apply IH].
      rewrite <- (append_empty_r (join sep (z :: l))) at 1.
      rewrite <- append_assoc. apply includes_append.
Qed.

Lemma runTasks_app (a b : list Task) :
  runTasks (a ++ b) =
  let '(ps, ws, err) := runTasks a in
  match err with
  | Some e => (ps, ws, Some e)
  | None =>
      let '(ps', ws', err') := runTasks b in
      (ps ++ ps', ws ++ ws', err')
  end.
Proof.
  induction a as [| t a IH]; simpl.
  - destruct (runTasks b) as [[ps ws] err]. reflexivity.
  - destruct t as [[p w] | e]; [| reflexivity].
    rewrite IH. destruct (runTasks a) as [[ps ws] [e |]]; [reflexivity |].
    destruct (runTasks b) as [[ps' ws'] err']. now rewrite app_assoc.
Qed.

Lemma promiseAll_fulfilled {A : Type} (ps : list (Promise A)) (vs : list A) :
  promiseAll ps = Fulfilled vs -> ps = map Fulfilled vs.
Proof.
  revert vs. induction ps as [| p ps IH]; intros vs H; simpl in H.
  - injection H as <-. reflexivity.
  - destruct p as [a | e]; [| discriminate].
    destruct (promiseAll ps) as [l | e]; [| discriminate].
    injection H as <-. simpl. f_equal. now apply IH.
Qed.

Lemma promiseAll_map_fulfilled {A : Type} (vs : list A) :
  promiseAll (map Fulfilled vs) = Fulfilled vs.
Proof.
  induction vs as [| a vs IH]; simpl; [reflexivity | now rewrite IH].
Qed.

Lemma promiseAll_rejected {A : Type} (ps : list (Promise A)) (e : Error) :
  In (Rejected e) ps ->
  exists e', promiseAll ps = Rejected e' /\ In (Rejected e') ps.
Proof.
  induction ps as [| p ps IH]; intros Hin; [contradiction |].
  destruct p as [a | e0].
  - destruct Hin as [Heq | Hin]; [discriminate |].
    destruct (IH Hin) as (e' & He & Hin'). exists e'. simpl. rewrite He.
    split; [reflexivity | now right].
  - exists e0. split; [reflexivity | now left].
Qed.

(** A run without exception pairs every task with its promise. *)
Lemma runTasks_none (ts : list Task) (ps : list (Promise unit)) (ws : list Chain) :
  runTasks ts = (ps, ws, None) -> paired ts ps.
Proof.
  revert ps ws. induction ts as [| t ts IH]; intros ps ws H; simpl in H.
  - injection H as <- <-. constructor.
  - destruct t as [[p w] | e]; [| discriminate].
    destruct (runTasks ts) as [[ps' ws'] err] eqn:E. injection H as <- <- ->.
    constructor; [eauto | eapply IH; reflexivity].
Qed.

Lemma runTasks_some (ts : list Task) (ps : list (Promise unit)) (ws : list Chain)
      (e : Error) :
  runTasks ts = (ps, ws, Some e) -> In (Throw e) ts.
Proof.
  revert ps ws. induction ts as [| t ts IH]; intros ps ws H; simpl in H.
  - discriminate.
  - destruct t as [[p w] | e0].
    + destruct (runTasks ts) as [[ps' ws'] err] eqn:E. injection H as <- <- ->.
      right. eapply IH. reflexivity.
    + injection H as <- <- <-. now left.
Qed.


Lemma runTasks_throws (ts : list Task) (e : Error) :
  In (Throw e) ts -> exists ps ws e', runTasks ts = (ps, ws, Some e').
Proof.
  induction ts as [| t ts IH]; intros Hin; [contradiction |].
  destruct t as [[p w] | e0].
  - destruct Hin as [Heq | Hin]; [discriminate |].
    destruct (IH Hin) as (ps & ws & e' & E).
    exists (p :: ps), (w ++ ws), e'. simpl. now rewrite E.
  - exists [], [], e0. reflexivity.
Qed.

Lemma runTasks_scheduled (ts : list Task) :
  (forall t, In t ts -> exists p w, t = Ok (p, w)) ->
  exists ps ws, runTasks ts = (ps, ws, None).
Proof.
  induction ts as [| t ts IH]; intros H.
  - exists [], []. reflexivity.
  - destruct (H t (or_introl eq_refl)) as (p & w & ->).
    destruct IH as (ps & ws & E); [intros t' Ht'; apply H; now right |].
    exists (p :: ps), (w ++ ws). simpl. now rewrite E.
Qed.

Lemma paired_in (ts : list Task) (ps : list (Promise unit)) :
  paired ts ps -> forall p w, In (Ok (p, w)) ts -> In p ps.
Proof.
  induction 1 as [| t p0 ts ps [w0 Hw] _ IH]; intros p w Hin; [contradiction |].
  destruct Hin as [Heq | Hin].
  - left. rewrite Hw in Heq. now injection Heq as ->.
  - right. eapply IH. eassumption.
Qed.

Lemma paired_in_inv (ts : list Task) (ps : list (Promise unit)) :
  paired ts ps -> forall p, In p ps -> exists w, In (Ok (p, w)) ts.
Proof.
  induction 1 as [| t p0 ts ps [w0 Hw] _ IH]; intros p Hin; [contradiction |].
  destruct Hin as [<- | Hin].
  - exists w0. left. exact Hw.
  - destruct (IH p Hin) as [w H']. exists w. now right.
Qed.

Lemma paired_fulfilled (ts : list Task) (vs : list unit) :
  paired ts (map Fulfilled vs) ->
  Forall (fun t => exists ws, t = Ok (Fulfilled tt, ws)) ts.
Proof.
  revert vs. induction ts as [| t ts IH]; intros vs H; [constructor |].
  destruct vs as [| [] vs]; inversion H; subst.
  constructor; [assumption | eapply IH; eassumption].
Qed.

Lemma paired_resolved (ts : list Task) (ps : list (Promise unit)) :
  paired ts ps ->
  Forall (fun t => exists ws, t = Ok (Fulfilled tt, ws)) ts ->
  ps = map Fulfilled (map (fun _ => tt) ps).
Proof.
  induction 1 as [| t p ts ps [w Hw] _ IH]; intros Hall; [reflexivity |].
  inversion Hall as [| ? ? [w' Hw'] Hrest]; subst.
  injection Hw' as -> _. simpl. f_equal. now apply IH.
Qed.

Section ConverterFacts.

Context {env : Collaborators}.

Lemma createFile_run (content fileName dir : string) (st : Store) :
  createFile content fileName dir st =
  (Ok (fst (fileOutcome content fileName dir)),
   mkStore (heap st) (pending st ++ snd (fileOutcome content fileName dir))).
Proof.
  unfold createFile, fileOutcome.
  destruct (ensureDir _); [destruct (writeFile _ _) |]; simpl;
    unfold ret; try rewrite app_nil_r; destruct st; reflexivity.
Qed.

Lemma thenCreate_run (p : Promise string) (fileName dir : string) (st : Store) :
  match p with
  | Fulfilled content => createFile content fileName dir
  | Rejected e => ret (Rejected e)
  end st =
  (Ok (fst (thenCreate p fileName dir)),
   mkStore (heap st) (pending st ++ snd (thenCreate p fileName dir))).
Proof.
  destruct p as [content | e]; simpl.
  - apply createFile_run.
  - unfold ret. rewrite app_nil_r. destruct st; reflexivity.
Qed.

Lemma writeStep_run (dir : string) (type : StepType) (kv : Value * Value) (st : Store) :
  writeStep type (snd kv) (fst kv) dir st =
  match stepTask dir type kv with
  | Ok (p, ws) => (Ok p, mkStore (heap st) (pending st ++ ws))
  | Throw e => (Throw e, st)
  end.
Proof.
  unfold writeStep, stepTask, bindM, lift.
  destruct (renderStep type (snd kv) (fst kv)) as [p | e]; simpl; [| reflexivity].
  rewrite thenCreate_run. destruct (thenCreate _ _ _). reflexivity.
Qed.

(** The inner loop of [convertApp]: the promises of the steps are
    appended in order, up to the first step whose rendering throws. *)
Lemma schedule_steps (dir : string) (v3Type : StepType) (kvs : list (Value * Value)) :
  forall (st : Store) (pre : list Cell) (ps0 : list (Promise unit)) (post : list Cell),
    heap st = pre ++ CPromises ps0 :: post ->
    forEachM (scheduleStep (List.length pre) dir v3Type) kvs st =
    let '(ps, ws, err) := runTasks (map (stepTask dir v3Type) kvs) in
    (outcomeOf err, mkStore (pre ++ CPromises (ps0 ++ ps) :: post) (pending st ++ ws)).
Proof.
  induction kvs as [| kv kvs IH]; intros st pre ps0 post Hh.
  - simpl. unfold ret. rewrite !app_nil_r, <- Hh. destruct st; reflexivity.
  - cbn [forEachM map runTasks]. unfold bindM at 1. unfold scheduleStep at 1.
    unfold bindM at 1. rewrite writeStep_run.
    destruct (stepTask dir v3Type kv) as [[p ws] | e].
    + set (st1 := mkStore _ _).
      rewrite (pushPromise_mid st1 pre ps0 post _ p Hh eq_refl).
      set (st2 := mkStore _ _).
      rewrite (IH st2 pre (ps0 ++ [p]) post eq_refl).
      destruct (runTasks _) as [[ps ws'] err].
      unfold st2, st1. simpl. rewrite <- !app_assoc. reflexivity.
    + simpl. rewrite !app_nil_r, <- Hh. destruct st; reflexivity.
Qed.

Lemma schedule_category (dir : string) (legacyApp : loc) (app : Value)
      (entry : Field * StepType) :
  forall (st : Store) (h : list Cell) (ps0 : list (Promise unit)) (post : list Cell),
    heap st = h ++ CPromises ps0 :: post ->
    nth_error h legacyApp = Some (CData app) ->
    isNullish app = false ->
    scheduleCategory legacyApp (List.length h) dir entry st =
    let '(ps, ws, err) := runTasks (categoryTasks dir app entry) in
    (outcomeOf err, mkStore (h ++ CPromises (ps0 ++ ps) :: post) (pending st ++ ws)).
Proof.
  intros st h ps0 post Hh Happ Hn. unfold scheduleCategory, categoryTasks.
  unfold bindM at 1. rewrite (readData_at st h _ legacyApp app Hh Happ).
  unfold bindM at 1. unfold lift. rewrite (getField_fieldOr _ _ Hn).
  apply schedule_steps. exact Hh.
Qed.

Lemma schedule_categories (dir : string) (legacyApp : loc) (app : Value)
      (cats : list (Field * StepType)) :
  forall (st : Store) (h : list Cell) (ps0 : list (Promise unit)) (post : list Cell),
    heap st = h ++ CPromises ps0 :: post ->
    nth_error h legacyApp = Some (CData app) ->
    isNullish app = false ->
    forEachM (scheduleCategory legacyApp (List.length h) dir) cats st =
    let '(ps, ws, err) := runTasks (flat_map (categoryTasks dir app) cats) in
    (outcomeOf err, mkStore (h ++ CPromises (ps0 ++ ps) :: post) (pending st ++ ws)).
Proof.
  induction cats as [| entry cats IH]; intros st h ps0 post Hh Happ Hn.
  - simpl. unfold ret. rewrite !app_nil_r, <- Hh. destruct st; reflexivity.
  - cbn [forEachM flat_map]. unfold bindM at 1.
    rewrite (schedule_category dir legacyApp app entry st h ps0 post Hh Happ Hn).
    rewrite runTasks_app.
    destruct (runTasks (categoryTasks dir app entry)) as [[ps ws] [e |]].
    + reflexivity.
    + simpl outcomeOf. cbv iota. set (st1 := mkStore _ _).
      rewrite (IH st1 h (ps0 ++ ps) post eq_refl Happ Hn).
      destruct (runTasks _) as [[ps' ws'] err'].
      unfold st1. simpl. rewrite <- !app_assoc. reflexivity.
Qed.

Lemma writeIndex_run (dir : string) (legacyApp : loc) (app : Value) (st : Store) :
  nth_error (heap st) legacyApp = Some (CData app) ->
  isNullish app = false ->
  exists new p ws,
    indexTask dir app = Ok (p, ws) /\
    writeIndex legacyApp dir st = (Ok p, mkStore (heap st ++ new) (pending st ++ ws)).
Proof.
  intros Happ Hn. unfold writeIndex, renderIndex, indexTask.
  destruct (indexContext_run legacyApp app st Happ Hn) as [new Hrun].
  exists new.
  destruct (thenCreate (renderTemplate indexTemplateFile (indexContextOf app))
                       "index.js" dir) as [p ws] eqn:Et.
  exists p, ws. split; [reflexivity |].
  unfold bindM at 1. unfold bindM at 1. rewrite Hrun. unfold ret at 1.
  rewrite thenCreate_run, Et. reflexivity.
Qed.

Lemma writePackageJson_run (dir : string) (legacyApp : loc) (app : Value) (st : Store) :
  nth_error (heap st) legacyApp = Some (CData app) ->
  writePackageJson legacyApp dir st =
  match packageTask dir app with
  | Ok (p, ws) => (Ok p, mkStore (heap st) (pending st ++ ws))
  | Throw e => (Throw e, st)
  end.
Proof.
  intros Happ. unfold writePackageJson, renderPackageJson, packageTask.
  unfold bindM at 1. unfold bindM at 1.
  rewrite (readData_at st (heap st) [] legacyApp app (eq_sym (app_nil_r _)) Happ).
  unfold bindM at 1. unfold lift.
  destruct (packageContext app) as [ctx | e]; simpl; [| reflexivity].
  unfold ret at 1. rewrite thenCreate_run. destruct (thenCreate _ _ _). reflexivity.
Qed.

(** [convertApp] runs the tasks of the definition in order: it throws
    the exception of the first task that throws, and otherwise returns
    the join of their promises; the chains it queues are those of the
    tasks that ran, and its cells come after the existing ones. *)
Lemma convertApp_run (dir : string) (legacyApp : loc) (app : Value) (st : Store) :
  nth_error (heap st) legacyApp = Some (CData app) ->
  isNullish app = false ->
  exists new,
    convertApp legacyApp dir st =
    let '(ps, ws, err) := runTasks (tasks dir app) in
    (match err with
     | None => Ok (promiseAll ps)
     | Some e => Throw e
     end,
     mkStore (heap st ++ new) (pending st ++ ws)).
Proof.
  intros Happ Hn. unfold convertApp, tasks.
  unfold bindM at 1. unfold alloc at 1. set (st1 := mkStore _ _).
  unfold bindM at 1.
  rewrite (schedule_categories dir legacyApp app stepNamesMap st1 (heap st) [] []
             eq_refl Happ Hn).
  rewrite runTasks_app.
  destruct (runTasks (flat_map (categoryTasks dir app) stepNamesMap))
    as [[ps ws] [e |]].
  { exists [CPromises ps]. simpl. reflexivity. }
  simpl outcomeOf. cbv iota. set (st2 := mkStore _ _).
  assert (Happ2 : nth_error (heap st2) legacyApp = Some (CData app)).
  { unfold st2. simpl. rewrite nth_error_app1; [exact Happ |].
    apply nth_error_Some. congruence. }
  destruct (writeIndex_run dir legacyApp app st2 Happ2 Hn)
    as (new & pi & wsi & Hti & Hwi).
  unfold bindM at 1. rewrite Hwi. set (st3 := mkStore _ _).
  assert (H3 : heap st3 = heap st ++ CPromises ps :: new).
  { unfold st3, st2. simpl. rewrite <- app_assoc. reflexivity. }
  unfold bindM at 1.
  rewrite (pushPromise_mid st3 (heap st) _ _ _ pi H3 eq_refl).
  set (st4 := mkStore _ _).
  assert (Happ4 : nth_error (heap st4) legacyApp = Some (CData app)).
  { unfold st4. simpl. rewrite nth_error_app1; [exact Happ |].
    apply nth_error_Some. congruence. }
  unfold bindM at 1. rewrite (writePackageJson_run dir legacyApp app st4 Happ4).
  cbn [runTasks]. rewrite Hti.
  destruct (packageTask dir app) as [[pp wsp] | e].
  - set (st5 := mkStore _ _).
    unfold bindM at 1.
    rewrite (pushPromise_mid st5 (heap st) _ _ _ pp eq_refl eq_refl).
    set (st6 := mkStore _ _).
    unfold bindM at 1.
    rewrite (readPromises_mid st6 (heap st) _ _ _ eq_refl eq_refl).
    unfold ret. exists (CPromises (ps ++ [pi; pp]) :: new).
    unfold st6, st5, st4, st3, st2, st1. simpl.
    rewrite <- !app_assoc. simpl. rewrite ?app_nil_r. reflexivity.
  - exists (CPromises (ps ++ [pi]) :: new).
    unfold st4, st3, st2, st1. simpl.
    rewrite <- !app_assoc. simpl. rewrite ?app_nil_r. reflexivity.
Qed.

Lemma stepTask_missing_template (dir : string) (type : StepType)
      (kv : Value * Value) (e : Error) :
  readFile (stepTemplateFile type) = Throw e ->
  (exists e', stepTask dir type kv = Throw e') \/
  stepTask dir type kv = Ok (Rejected e, []).
Proof.
  intros Hread. unfold stepTask, renderStep.
  destruct (stepContext (snd kv) (fst kv)) as [ctx | e']; simpl; [right | left; eauto].
  unfold renderTemplate. rewrite Hread. reflexivity.
Qed.

Lemma stepTask_in_tasks (dir : string) (app : Value) (entry : Field * StepType)
      (kv : Value * Value) :
  In entry stepNamesMap ->
  In kv (entries (fieldOr app (fst entry))) ->
  In (stepTask dir (snd entry) kv) (tasks dir app).
Proof.
  intros He Hkv. unfold tasks. apply in_or_app. left.
  apply in_flat_map. exists entry. split; [exact He |].
  unfold categoryTasks. now apply in_map.
Qed.

(** The outcome of [convertApp] on an actual definition, in terms of
    its tasks. *)
Lemma convertApp_outcome (dir : string) (legacyApp : loc) (app : Value) (st : Store) :
  nth_error (heap st) legacyApp = Some (CData app) ->
  isNullish app = false ->
  fst (convertApp legacyApp dir st) =
  match runTasks (tasks dir app) with
  | (ps, _, None) => Ok (promiseAll ps)
  | (_, _, Some e) => Throw e
  end.
Proof.
  intros Happ Hn. destruct (convertApp_run dir legacyApp app st Happ Hn) as [new ->].
  destruct (runTasks (tasks dir app)) as [[ps ws] [e |]]; reflexivity.
Qed.

(** Every task gets scheduled exactly when all synchronous rendering
    succeeds. *)
Lemma tasks_scheduled_iff (dir : string) (app : Value) :
  (forall t, In t (tasks dir app) -> exists p ws, t = Ok (p, ws)) <->
  rendersAll app.
Proof.
  split.
  - intros Hall. split.
    + intros entry kv He Hkv.
      destruct (Hall _ (stepTask_in_tasks dir app entry kv He Hkv)) as (p & ws & Ht).
      unfold stepTask, renderStep in Ht.
      destruct (stepContext (snd kv) (fst kv)) as [ctx | e]; [eauto | discriminate].
    + destruct (Hall (packageTask dir app)) as (p & ws & Ht).
      { unfold tasks. apply in_or_app. right. right. now left. }
      unfold packageTask in Ht.
      destruct (packageContext app) as [ctx | e]; [eauto | discriminate].
  - intros [Hsteps [pctx Hpkg]] t Hin. unfold tasks in Hin.
    apply in_app_or in Hin as [Hin | [<- | [<- | []]]].
    + apply in_flat_map in Hin as (entry & He & Hin). unfold categoryTasks in Hin.
      apply in_map_iff in Hin as (kv & <- & Hkv).
      destruct (Hsteps entry kv He Hkv) as [ctx Hctx].
      unfold stepTask, renderStep. rewrite Hctx. simpl.
      destruct (thenCreate _ _ _) as [p ws]. eauto.
    + unfold indexTask. destruct (thenCreate _ _ _) as [p ws]. eauto.
    + unfold packageTask. rewrite Hpkg. simpl.
      destruct (thenCreate _ _ _) as [p ws]. eauto.
Qed.

(** C8, as the code has it.  On an actual definition, [convertApp]
    resolves exactly when every task (the step files, the index, the
    manifest) resolves.  When the synchronous rendering of every task
    succeeds, so that every task is scheduled, and one of them rejects,
    [convertApp] rejects with the reason of a rejected task, whatever
    the others did.  When the synchronous part of a task throws,
    [convertApp] throws instead of returning a promise.  A step whose
    template cannot be read keeps the conversion from resolving, and
    makes it reject once every task is scheduled. *)
Theorem convertApp_all_or_nothing
        (dir : string) (legacyApp : loc) (app : Value) (st : Store) :
  nth_error (heap st) legacyApp = Some (CData app) ->
  isNullish app = false ->
  let outcome := fst (convertApp legacyApp dir st) in
  ((exists vs, outcome = Ok (Fulfilled vs)) <->
   Forall (fun t => exists ws, t = Ok (Fulfilled tt, ws)) (tasks dir app)) /\
  (rendersAll app ->
   forall e ws, In (Ok (Rejected e, ws)) (tasks dir app) ->
   exists e', outcome = Ok (Rejected e') /\
              exists ws', In (Ok (Rejected e', ws')) (tasks dir app)) /\
  (forall e, In (Throw e) (tasks dir app) ->
             exists e', outcome = Throw e' /\ In (Throw e') (tasks dir app)) /\
  (forall entry kv e,
      In entry stepNamesMap ->
      In kv (entries (fieldOr app (fst entry))) ->
      readFile (stepTemplateFile (snd entry)) = Throw e ->
      ~ (exists vs, outcome = Ok (Fulfilled vs)) /\
      (rendersAll app -> exists e', outcome = Ok (Rejected e'))).
Proof.
  intros Happ Hn outcome.
  set (allScheduled := forall t, In t (tasks dir app) -> exists p ws, t = Ok (p, ws)).
  assert (Hout := convertApp_outcome dir legacyApp app st Happ Hn).
  fold outcome in Hout.
  assert (Hiff : (exists vs, outcome = Ok (Fulfilled vs)) <->
                 Forall (fun t => exists ws, t = Ok (Fulfilled tt, ws)) (tasks dir app)).
  { rewrite Hout. destruct (runTasks (tasks dir app)) as [[ps ws] [e |]] eqn:Er.
    - split; [intros [vs H]; discriminate |].
      intros Hall. apply runTasks_some in Er.
      rewrite Forall_forall in Hall. destruct (Hall _ Er) as [w Hw]. discriminate.
    - apply runTasks_none in Er. split.
      + intros [vs H]. injection H as H. apply promiseAll_fulfilled in H. subst ps.
        eapply paired_fulfilled. exact Er.
      + intros Hall. rewrite (paired_resolved _ _ Er Hall), promiseAll_map_fulfilled.
        eauto. }
  assert (Hrej : allScheduled ->
                 forall e ws, In (Ok (Rejected e, ws)) (tasks dir app) ->
                 exists e', outcome = Ok (Rejected e') /\
                            exists ws', In (Ok (Rejected e', ws')) (tasks dir app)).
  { intros Hsched e ws Hin. rewrite Hout.
    destruct (runTasks_scheduled _ Hsched) as (ps & ws0 & Er). rewrite Er.
    apply runTasks_none in Er.
    destruct (promiseAll_rejected ps e (paired_in _ _ Er _ _ Hin)) as (e' & He' & Hin').
    exists e'. split; [now rewrite He' |].
    exact (paired_in_inv _ _ Er _ Hin'). }
  split; [exact Hiff |].
  split; [intros Hr; apply Hrej; exact (proj2 (tasks_scheduled_iff dir app) Hr) |].
  split.
  { intros e Hin. rewrite Hout.
    destruct (runTasks_throws _ _ Hin) as (ps & ws & e' & Er). rewrite Er.
    exists e'. split; [reflexivity |]. exact (runTasks_some _ _ _ _ Er). }
  intros entry kv e He Hkv Hread.
  pose proof (stepTask_in_tasks dir app entry kv He Hkv) as Hin.
  destruct (stepTask_missing_template dir (snd entry) kv e Hread) as [[e' Ht] | Ht].
  - split.
    + intros Hres. apply Hiff in Hres. rewrite Forall_forall in Hres.
      destruct (Hres _ Hin) as [w Hw]. rewrite Ht in Hw. discriminate.
    + intros Hr. destruct (proj2 (tasks_scheduled_iff dir app) Hr _ Hin) as (p & w & Hw).
      rewrite Ht in Hw. discriminate.
  - split.
    + intros Hres. apply Hiff in Hres. rewrite Forall_forall in Hres.
      destruct (Hres _ Hin) as [w Hw]. rewrite Ht in Hw. discriminate.
    + intros Hr. rewrite Ht in Hin.
      destruct (Hrej (proj2 (tasks_scheduled_iff dir app) Hr) e [] Hin) as (e' & He' & _).
      eauto.
Qed.

Lemma thenCreate_fulfilled (rendered : Promise string) (fileName dir : string)
      (ws : list Chain) :
  thenCreate rendered fileName dir = (Fulfilled tt, ws) ->
  exists content,
    rendered = Fulfilled content /\ ws = [fileChain (pathJoin dir fileName) content].
Proof.
  unfold thenCreate, fileOutcome. destruct rendered as [content | e]; [| discriminate].
  destruct (ensureDir _); [| discriminate]. destruct (writeFile _ _); [| discriminate].
  intros H. injection H as <-. eauto.
Qed.

Lemma stepContext_fields (definition key : Value) (ctx : Context) :
  stepContext definition key = Ok ctx ->
  exists fragments,
    renderFields definition = Ok fragments /\
    lookupOwn "FIELDS" ctx = Some (JStr (join ("," ++ nl)%string fragments)).
Proof.
  unfold stepContext. destruct (renderFields definition) as [fragments | e];
    [| discriminate]. simpl.
  destruct (getField definition f_sample_result_fields) as [samples | e];
    [| discriminate]. simpl.
  destruct (if negb (isEmpty samples) then _ else _) as [sample | e];
    [| discriminate]. simpl.
  destruct (toLowerCase key) as [lower | e]; [| discriminate]. simpl.
  intros H. injection H as <-. exists fragments. split; reflexivity.
Qed.

(** A step task that resolves has queued the chain of one file, named
    after the step, whose content is the step template rendered against
    the context of the step. *)
Lemma stepTask_fulfilled (dir : string) (type : StepType) (kv : Value * Value)
      (ws : list Chain) :
  stepTask dir type kv = Ok (Fulfilled tt, ws) ->
  exists content ctx text fragments,
    ws = [fileChain (pathJoin dir (stepFileName type (fst kv))) content] /\
    readFile (stepTemplateFile type) = Ok text /\
    template text ctx = Ok content /\
    renderFields (snd kv) = Ok fragments /\
    lookupOwn "FIELDS" ctx = Some (JStr (join ("," ++ nl)%string fragments)).
Proof.
  unfold stepTask, renderStep.
  destruct (stepContext (snd kv) (fst kv)) as [ctx | e] eqn:Ec; [| discriminate].
  simpl. intros H. injection H as H.
  destruct (thenCreate_fulfilled _ _ _ _ H) as (content & Hr & ->).
  unfold renderTemplate in Hr.
  destruct (readFile (stepTemplateFile type)) as [text | e]; [| discriminate].
  destruct (template text ctx) as [out | e] eqn:Et; [| discriminate].
  injection Hr as ->.
  destruct (stepContext_fields _ _ _ Ec) as (fragments & Hf & Hl).
  exists content, ctx, text, fragments. repeat split; assumption.
Qed.











End ConverterFacts.

(** ** The frame of the conversion (C9) *)























Section Frame.

Context {env : Collaborators}.






















End Frame.

(** ** The sample collaborators at work *)





Lemma convertApp_all_or_nothing_witness :
  ~ (exists vs, fst (@convertApp Demo.envMissing 0 "out" Demo.initial) = Ok (Fulfilled vs)) /\
  exists e, fst (@convertApp Demo.envMissing 0 "out" Demo.initial) = Ok (Rejected e).
Proof.
  destruct (@convertApp_all_or_nothing Demo.envMissing "out" 0 Demo.app Demo.initial
              eq_refl eq_refl) as (_ & _ & _ & Hmissing).
  destruct (Hmissing (f_triggers, trigger)
                     (JStr "contact", Demo.step [Demo.field "id" "Id"; Demo.field "tag" "Tag"])
                     (IOError "scaffold/convert//trigger.template.js")
                     (or_introl eq_refl) (or_introl eq_refl) eq_refl)
    as [Hnot Hrej].
  split; [exact Hnot |]. apply Hrej. split.
  - intros entry kv He Hkv.
    repeat (destruct He as [<- | He];
            [destruct Hkv as [<- | []]; eexists; reflexivity |]).
    contradiction.
  - eexists. reflexivity.
Defined.



(** C8, as stated, fails: with no template on disk the task of the
    trigger rejects, yet the conversion of a definition without a
    [general] section does not reject: reading the title throws while the
    manifest task is being set up, and [convertApp] throws with it. *)
Lemma convertApp_throws_instead_of_rejecting :
  let st := mkStore [CData Demo.appWithoutGeneral] [] in
  fst (@writeStep Demo.envMissing trigger (Demo.step [Demo.field "id" "Id"])
         (JStr "contact") "out" st)
  = Ok (Rejected (IOError "scaffold/convert//trigger.template.js")) /\
  fst (@convertApp Demo.envMissing 0 "out" st)
  = Throw (TypeError "Cannot read property 'title' of undefined") /\
  ~ (exists e, fst (@convertApp Demo.envMissing 0 "out" st) = Ok (Rejected e)).
Proof.
  split; [reflexivity | split; [reflexivity |]].
  intros [e H]. discriminate H.
Qed.


(** * Further properties *)

(** ** The field type, its range and the two lookups *)

Lemma typesMap_values (k : string) (v : Value) :
  lookupOwn k typesMap = Some v -> exists s, v = JStr s /\ In s mappedTypes.
Proof.
  unfold typesMap. simpl.
  repeat (destruct (String.eqb k _);
          [intros E; injection E as <-; eexists; split; [reflexivity | simpl; tauto] |]).
  discriminate.
Qed.

Lemma inherited_cases (k : string) (b : Builtin) :
  inherited k = Some b ->
  (k = "constructor" /\ b = ObjectConstructor) \/
  (k = "__proto__" /\ b = ObjectPrototype) \/
  (In k prototypeMethods /\ b = PrototypeMethod k).
Proof.
  unfold inherited.
  destruct (String.eqb_spec k "constructor") as [-> | _].
  { intros E. injection E as <-. now left. }
  destruct (String.eqb_spec k "__proto__") as [-> | _].
  { intros E. injection E as <-. right. now left. }
  destruct (existsb (String.eqb k) prototypeMethods) eqn:Ex; [| discriminate].
  intros E. injection E as <-. right. right. split; [| reflexivity].
  apply existsb_exists in Ex as (m & Hin & Hm).
  apply String.eqb_eq in Hm as ->. exact Hin.
Qed.

(** X1.  The type that [renderField] renders is one of the eight values
    of the table (["string"] being also the default), or one of the two
    built-ins that the table inherits under a lower-case name; it is
    never [undefined] and never empty. *)
Theorem fieldType_range (definition : Value) (r : Ref) :
  fieldType definition = Ok r ->
  (exists v, r = Data (JStr v) /\ In v mappedTypes) \/
  r = Native ObjectConstructor \/
  r = Native ObjectPrototype.
Proof.
  unfold fieldType.
  destruct (getField definition f_type) as [t | e]; simpl; [| discriminate].
  destruct (truthy t).
  - destruct t; simpl; try discriminate.
    intros E. injection E as <-. unfold objGet.
    destruct (lookupOwn (lowerString s) typesMap) as [v |] eqn:El.
    + pose proof (typesMap_truthy _ _ El) as Ht.
      destruct (typesMap_values _ _ El) as (w & -> & Hw).
      cbn [truthyRef]. rewrite Ht. left. eauto.
    + destruct (inherited (lowerString s)) as [b |] eqn:Ei; simpl.
      * destruct (inherited_cases _ _ Ei) as [[_ ->] | [[_ ->] | [Hin _]]];
          [right; now left | right; now right |].
        exfalso. pose proof (lowerString_not_upper s) as Hlow.
        simpl in Hin.
        repeat (destruct Hin as [Hm | Hin];
                [rewrite <- Hm in Hlow; discriminate Hlow |]).
        contradiction.
      * left. exists "string". split; [reflexivity | simpl; tauto].
  - intros E. injection E as <-. left. exists "string".
    split; [reflexivity | simpl; tauto].
Qed.

Lemma fieldType_range_witness :
  (exists v, Native ObjectConstructor = Data (JStr v) /\ In v mappedTypes) \/
  Native ObjectConstructor = Native ObjectConstructor \/
  Native ObjectConstructor = Native ObjectPrototype.
Proof.
  apply (fieldType_range (JObj [("type", JStr "Constructor")])). reflexivity.
Defined.






(** ** The help text of a fragment *)

Lemma includes_suffix (a p : string) : includes (a ++ p) p = true.
Proof.
  rewrite <- (append_empty_r p) at 1. apply includes_append.
Qed.

(** Every property of the list is part of the wrapped fragment. *)
Lemma wrapField_includes (props : list string) (p : string) :
  In p props -> includes (wrapField props) p = true.
Proof.
  intros Hin.
  set (body := join ("," ++ nl)%string (map (fun s => spaces 8 ++ s)%string props)).
  assert (E : wrapField props =
              ((spaces 6 ++ "{" ++ nl) ++ body ++ (nl ++ spaces 6 ++ "}"))%string).
  { unfold wrapField. fold body. rewrite !append_assoc. reflexivity. }
  rewrite E. apply includes_trans with body.
  - apply includes_append.
  - apply includes_trans with (spaces 8 ++ p)%string; [| apply includes_suffix].
    apply includes_join. apply in_map_iff. exists p. split; [reflexivity | exact Hin].
Qed.

(** X3.  Every fragment that [renderField] returns carries a help text of
    at least 10 code units: the [helpText] property it contains quotes
    the padded [help_text] of the definition. *)
Theorem renderField_help_text (definition key : Value) (fragment : string) :
  renderField definition key = Ok fragment ->
  let h := padHelpText (fieldOr definition f_help_text) in
  10 <= String.length h /\
  includes fragment ("helpText: '" ++ h ++ "'")%string = true.
Proof.
  intros H h. split; [apply padHelpText_length |].
  unfold renderField in H.
  destruct (fieldProps definition key) as [props |] eqn:EP; [| discriminate].
  simpl in H. injection H as <-.
  destruct (fieldProps_shape _ _ _ EP) as (k & l & t & r & _ & _ & _ & _ & Hp & Hn).
  apply wrapField_includes.
  destruct (truthy (fieldOr definition f_placeholder)).
  - destruct (Hp eq_refl) as (p & _ & ->). apply in_or_app. left.
    simpl. right. right. now left.
  - rewrite (Hn eq_refl). simpl. right. right. now left.
Qed.

Lemma renderField_help_text_witness :
  10 <= String.length (padHelpText (JStr "short")) /\
  includes
    (wrapField [ "key: 'id'"; "label: 'Id'";
                 "helpText: 'short (help text must be at least 10 characters)'";
                 "type: 'string'"; "required: false" ])
    "helpText: 'short (help text must be at least 10 characters)'" = true.
Proof.
  exact (renderField_help_text
           (JObj [("label", JStr "Id"); ("help_text", JStr "short")]) (JStr "id") _
           eq_refl).
Defined.

(** X4.  The values that [padHelpText] returns as they are, are exactly
    the strings of at least 10 code units. *)
Theorem padHelpText_fixed_points (x : Value) :
  JStr (padHelpText x) = x <-> exists s, x = JStr s /\ 10 <= String.length s.
Proof.
  split.
  - intros H. destruct x as [| | b | n | s | items | props]; try discriminate H.
    exists s. split; [reflexivity |].
    destruct (Nat.lt_ge_cases (String.length s) 10) as [Hlt | Hge]; [| exact Hge].
    exfalso. rewrite (padHelpText_short s Hlt) in H. injection H as H.
    apply (f_equal String.length) in H. rewrite !length_append in H. simpl in H. lia.
  - intros (s & -> & Hge). now rewrite (padHelpText_long s Hge).
Qed.

(** ** Which samples and field lists render *)

(** X5.  [renderSampleField] returns an entry exactly for the specs that
    are actual values and whose [type], [key] and [label] convert to
    strings; a [null] or [undefined] spec makes it throw. *)
Theorem renderSampleField_ok_iff (def : Value) :
  (exists entry, renderSampleField def = Ok entry) <-> sampleRenderable def = true.
Proof.
  unfold sampleRenderable.
  destruct (isNullish def) eqn:Hn.
  - simpl. split; [| discriminate]. intros [entry H].
    unfold renderSampleField in H.
    destruct (getField_nullish def f_type Hn) as [e He].
    rewrite He in H. discriminate.
  - simpl negb. rewrite andb_true_l.
    unfold renderSampleField. rewrite !(getField_fieldOr _ _ Hn). simpl.
    unfold printable.
    destruct (toStr (fieldOr def f_type)) as [name | e]; simpl;
      [| split; [intros [entry H] |]; discriminate].
    destruct (toStr (fieldOr def f_key)) as [k | e]; simpl;
      [| split; [intros [entry H] |]; discriminate].
    unfold quote at 1.
    destruct (objGet_typesMap_printable name) as [t Ht]. rewrite Ht. simpl.
    unfold quote. simpl refToStr.
    destruct (toStr (fieldOr def f_label)) as [l | e]; simpl;
      [split; eauto | split; [intros [entry H] |]; discriminate].
Qed.

Lemma mapM_ok_iff {A B : Type} (f : A -> result B) (l : list A) :
  (exists ys, mapM f l = Ok ys) <-> Forall (fun x => exists y, f x = Ok y) l.
Proof.
  induction l as [| x l IH]; simpl.
  - split; [constructor | eauto].
  - split.
    + intros [ys H]. destruct (f x) as [y |] eqn:Ex; [| discriminate]. simpl in H.
      destruct (mapM f l) as [ys' |]; [| discriminate].
      constructor; [eauto | apply IH; eauto].
    + intros H. inversion H as [| ? ? [y Hy] Hrest]; subst.
      apply IH in Hrest as [ys Hys]. rewrite Hy, Hys. simpl. eauto.
Qed.

Lemma mapM_length {A B : Type} (f : A -> result B) (l : list A) (ys : list B) :
  mapM f l = Ok ys -> List.length ys = List.length l.
Proof.
  intros H. apply mapM_Forall2 in H. symmetry. eapply Forall2_length. exact H.
Qed.

(** X6.  The fields of a step render all or none: [renderFields] returns
    its fragments, one per field visited and in that order, exactly when
    the step is an actual value, [_.map] can walk its [fields], and every
    field visited is renderable; a single field that is not makes the
    whole list throw. *)
Theorem renderFields_all_or_none (definition : Value) :
  let fields := fieldOr definition f_fields in
  ((exists fragments, renderFields definition = Ok fragments) <->
   isNullish definition = false /\
   mapEntries fields = Ok (entries fields) /\
   Forall (fun kv => renderable (snd kv) (fst kv) = true) (entries fields)) /\
  (forall fragments,
      renderFields definition = Ok fragments ->
      Forall2 (fun kv fragment => renderField (snd kv) (fst kv) = Ok fragment)
              (entries fields) fragments).
Proof.
  intros fields. unfold renderFields.
  destruct (isNullish definition) eqn:Hn.
  - destruct (getField_nullish definition f_fields Hn) as [e He]. rewrite He. simpl.
    split; [split; [intros [fr H]; discriminate | intros [H _]; discriminate] |].
    intros fr H. discriminate.
  - rewrite (getField_fieldOr _ _ Hn). fold fields. simpl.
    destruct (mapEntries fields) as [visited | e] eqn:Ev; simpl.
    + rewrite (mapEntries_ok _ _ Ev) in *. split.
      * rewrite mapM_ok_iff. split.
        -- intros H. split; [reflexivity | split; [reflexivity |]].
           eapply Forall_impl; [| exact H]. intros kv Hkv.
           now apply renderField_ok_iff.
        -- intros (_ & _ & H). eapply Forall_impl; [| exact H]. intros kv Hkv.
           now apply renderField_ok_iff.
      * intros fr H. now apply mapM_Forall2 in H.
    + split; [split; [intros [fr H]; discriminate | intros (_ & H & _); discriminate] |].
      intros fr H. discriminate.
Qed.

(** ** Steps *)

Section StepFacts.

Context {env : Collaborators}.

(** The context that [renderStep] hands to the step template, when it
    builds one. *)
Lemma stepContext_shape (definition key : Value) (templateContext : Context) :
  stepContext definition key = Ok templateContext ->
  exists s fragments sample,
    key = JStr s /\
    renderFields definition = Ok fragments /\
    templateContext =
    [ ("KEY", JStr (snakeCase key));
      ("CAMEL", JStr (camelCase key));
      ("NOUN", JStr (capitalize key));
      ("LOWER_NOUN", JStr (lowerString s));
      ("FIELDS", JStr (join ("," ++ nl)%string fragments));
      ("SAMPLE", JStr sample) ] /\
    (isEmpty (fieldOr definition f_sample_result_fields) = true ->
     sample = EmptyString) /\
    (isEmpty (fieldOr definition f_sample_result_fields) = false ->
     exists rendered,
       renderSample definition = Ok rendered /\
       sample = (rendered ++ "," ++ nl)%string).
Proof.
  unfold stepContext.
  destruct (renderFields definition) as [fragments | e] eqn:Ef; [| discriminate].
  simpl.
  assert (Hn : isNullish definition = false).
  { destruct (isNullish definition) eqn:Hn; [| reflexivity].
    unfold renderFields in Ef.
    destruct (getField_nullish definition f_fields Hn) as [e He].
    rewrite He in Ef. discriminate. }
  rewrite (getField_fieldOr _ _ Hn). simpl.
  destruct (isEmpty (fieldOr definition f_sample_result_fields)) eqn:Ee; simpl.
  - destruct key as [| | b | n | s | items | props]; simpl; try discriminate.
    intros H. injection H as <-. exists s, fragments, EmptyString.
    do 3 (split; [reflexivity |]). split; [reflexivity | discriminate].
  - destruct (renderSample definition) as [rendered | e]; simpl; [| discriminate].
    destruct key as [| | b | n | s | items | props]; simpl; try discriminate.
    intros H. injection H as <-.
    exists s, fragments, (rendered ++ "," ++ nl)%string.
    do 3 (split; [reflexivity |]). split; [discriminate |].
    intros _. exists rendered. split; reflexivity.
Qed.

Lemma Forall2_indexedFrom (P : Value -> string -> Prop) (i : Z) (items : list Value)
      (rendered : list string) :
  Forall2 (fun kv entry => P (snd kv) entry) (indexedFrom i items) rendered ->
  Forall2 P items rendered.
Proof.
  revert i rendered. induction items as [| x items IH]; intros i rendered H;
    simpl in H; inversion H; subst; constructor; [assumption | eauto].
Qed.

(** X7.  The sample of a step reaches its template.  Whenever
    [renderStep] builds its context: when [sample_result_fields] is a
    non-empty array, [SAMPLE] is the sample block, holding one entry per
    spec, in order, as [renderSampleField] renders it, followed by a
    comma and a line break; when [sample_result_fields] is absent,
    [null], or an empty array, object or string, [SAMPLE] is empty. *)
Theorem stepContext_sample (definition key : Value) (templateContext : Context) :
  stepContext definition key = Ok templateContext ->
  let samples := fieldOr definition f_sample_result_fields in
  exists sample,
    lookupOwn "SAMPLE" templateContext = Some (JStr sample) /\
    (forall first rest,
        samples = JArr (first :: rest) ->
        exists rendered,
          Forall2 (fun def entry => renderSampleField def = Ok entry)
                  (first :: rest) rendered /\
          sample =
          ("    sample: {" ++ nl ++
           join ("," ++ nl) rendered ++ nl ++
           "    }," ++ nl)%string) /\
    (In samples [JUndefined; JNull; JArr []; JObj []; JStr EmptyString] ->
     sample = EmptyString).
Proof.
  intros Hc samples.
  assert (Hn : isNullish definition = false).
  { destruct (isNullish definition) eqn:Hn; [| reflexivity].
    unfold stepContext, renderFields in Hc.
    destruct (getField_nullish definition f_fields Hn) as [e He].
    rewrite He in Hc. discriminate. }
  destruct (stepContext_shape _ _ _ Hc)
    as (s & fragments & sample & _ & _ & -> & Hempty & Hfull).
  exists sample. split; [reflexivity |]. fold samples in Hempty, Hfull. split.
  - intros first rest Hs. rewrite Hs in Hfull.
    destruct (Hfull eq_refl) as (out & Hr & ->).
    unfold renderSample in Hr. rewrite (getField_fieldOr _ _ Hn) in Hr.
    fold samples in Hr. rewrite Hs in Hr. cbn [bind mapEntries entries] in Hr.
    destruct (mapM _ (indexedFrom 0 (first :: rest))) as [rendered | e] eqn:Em;
      [| discriminate].
    cbn [bind] in Hr. injection Hr as <-. exists rendered. split.
    + apply mapM_Forall2 in Em. exact (Forall2_indexedFrom _ _ _ _ Em).
    + unfold wrapSample. cbn [spaces]. rewrite !append_assoc. reflexivity.
  - intros Hin. apply Hempty. simpl in Hin.
    repeat (destruct Hin as [<- | Hin]; [reflexivity |]). contradiction.
Qed.

Lemma renderStep_needs_string_key (type : StepType) (definition key : Value) :
  isString key = false -> exists e, renderStep type definition key = Throw e.
Proof.
  intros Hk. unfold renderStep.
  destruct (stepContext definition key) as [ctx | e] eqn:Ec; simpl; [| eauto].
  destruct (stepContext_shape _ _ _ Ec) as (s & _ & _ & -> & _). discriminate.
Qed.

(** X8.  A step whose key is not a string cannot be rendered:
    [renderStep] throws on it.  The steps of a category given as an
    array are keyed by their indices, so a definition with a non-empty
    array for a category makes [convertApp] throw. *)
Theorem convertApp_array_category
        (dir : string) (legacyApp : loc) (app : Value) (st : Store)
        (entry : Field * StepType) (first : Value) (rest : list Value) :
  nth_error (heap st) legacyApp = Some (CData app) ->
  In entry stepNamesMap ->
  fieldOr app (fst entry) = JArr (first :: rest) ->
  (exists e, renderStep (snd entry) first (JNum 0) = Throw e) /\
  (exists e, fst (convertApp legacyApp dir st) = Throw e).
Proof.
  intros Happ He Harr.
  destruct (renderStep_needs_string_key (snd entry) first (JNum 0) eq_refl) as [e Hthrow].
  split; [eauto |].
  assert (Hn : isNullish app = false).
  { destruct app; try reflexivity; discriminate Harr. }
  assert (Hin : In (Throw e) (tasks dir app)).
  { assert (Hkv : In (JNum 0, first) (entries (fieldOr app (fst entry)))).
    { rewrite Harr. simpl. now left. }
    pose proof (stepTask_in_tasks dir app entry _ He Hkv) as Ht.
    unfold stepTask in Ht. simpl in Ht. rewrite Hthrow in Ht. exact Ht. }
  rewrite (convertApp_outcome dir legacyApp app st Happ Hn).
  destruct (runTasks_throws _ _ Hin) as (ps & ws & e' & Er). rewrite Er. eauto.
Qed.

End StepFacts.

Lemma stepContext_sample_witness :
  exists templateContext sample,
    @stepContext Demo.env
       (JObj [ ("fields", JObj []);
               ("sample_result_fields", JArr [sampleSpec ("id", "integer", "Id")]) ])
       (JStr "contact") = Ok templateContext /\
    lookupOwn "SAMPLE" templateContext = Some (JStr sample) /\
    sample =
    ("    sample: {" ++ nl ++
     "      id: {" ++ nl ++
     "        type: 'integer'," ++ nl ++
     "        label: 'Id'" ++ nl ++
     "      }" ++ nl ++
     "    }," ++ nl)%string.
Proof.
  eexists.
  destruct (@stepContext_sample Demo.env
              (JObj [ ("fields", JObj []);
                      ("sample_result_fields", JArr [sampleSpec ("id", "integer", "Id")]) ])
              (JStr "contact") _ eq_refl)
    as (sample & Hl & Harray & _).
  exists sample. split; [reflexivity | split; [exact Hl |]].
  destruct (Harray _ _ eq_refl) as (rendered & Hf & ->).
  inversion Hf as [| def entry defs entries Hentry Hrest]. subst.
  inversion Hrest. subst.
  vm_compute in Hentry. injection Hentry as <-. reflexivity.
Defined.

Lemma convertApp_array_category_witness :
  exists e,
    fst (@convertApp Demo.env 0 "out"
           (mkStore [CData (JObj [("triggers", JArr [Demo.step []])])] []))
    = Throw e.
Proof.
  exact (proj2 (@convertApp_array_category Demo.env "out" 0 _
                  (mkStore [CData (JObj [("triggers", JArr [Demo.step []])])] [])
                  (f_triggers, trigger) (Demo.step []) []
                  eq_refl (or_introl eq_refl) eq_refl)).
Defined.

(** ** Tasks, their files and their number *)

Lemma runTasks_incl (ts : list Task) (ps : list (Promise unit)) (ws : list Chain) :
  runTasks ts = (ps, ws, None) ->
  forall p w, In (Ok (p, w)) ts -> incl w ws.
Proof.
  revert ps ws. induction ts as [| t ts IH]; intros ps ws H p w Hin; [contradiction |].
  simpl in H. destruct t as [[p0 w0] | e]; [| discriminate].
  destruct (runTasks ts) as [[ps' ws'] err] eqn:E. injection H as <- <- ->.
  destruct Hin as [Heq | Hin].
  - injection Heq as <- <-. now apply incl_appl, incl_refl.
  - apply incl_appr. eapply IH; [reflexivity | exact Hin].
Qed.

Lemma runTasks_count (ts : list Task) (ps : list (Promise unit)) (ws : list Chain)
      (err : option Error) :
  Forall oneFile ts ->
  runTasks ts = (ps, ws, err) ->
  List.length (written (List.concat ws)) <= List.length ts /\
  (err = None -> List.length ps = List.length ts) /\
  (err = None -> Forall (fun p => p = Fulfilled tt) ps ->
   List.length (written (List.concat ws)) = List.length ts).
Proof.
  intros Hall. revert ps ws.
  induction Hall as [| t ts Ht _ IH]; intros ps ws H; simpl in H.
  - injection H as <- <- <-. repeat split; reflexivity.
  - destruct t as [[p w] | e].
    + destruct (runTasks ts) as [[ps' ws'] err'] eqn:E. injection H as <- <- <-.
      destruct (IH _ _ eq_refl) as (Hle & Hps & Heq).
      destruct (Ht p w eq_refl) as [Hw1 Hw2].
      rewrite concat_app, written_app, length_app. simpl. split; [lia | split].
      * intros He. rewrite (Hps He). reflexivity.
      * intros He Hf. inversion Hf as [| ? ? Hp Hrest]. subst p.
        rewrite (Hw2 eq_refl), (Heq He Hrest). reflexivity.
    + injection H as <- <- <-. simpl. split; [lia | split; discriminate].
Qed.

Section RunFacts.

Context {env : Collaborators}.

Lemma thenCreate_oneFile (rendered : Promise string) (fileName dir : string) :
  oneFile (Ok (thenCreate rendered fileName dir)).
Proof.
  intros p ws H. injection H as H. unfold thenCreate, fileOutcome in H.
  destruct rendered as [content | e].
  - destruct (ensureDir _); [destruct (writeFile _ _) |];
      injection H as <- <-; simpl; split; try lia; try discriminate; reflexivity.
  - injection H as <- <-. simpl. split; [lia | discriminate].
Qed.

Lemma tasks_oneFile (dir : string) (app : Value) : Forall oneFile (tasks dir app).
Proof.
  apply Forall_forall. intros t Hin. unfold tasks in Hin.
  apply in_app_or in Hin as [Hin | [<- | [<- | []]]].
  - apply in_flat_map in Hin as (entry & _ & Hin). unfold categoryTasks in Hin.
    apply in_map_iff in Hin as (kv & <- & _). unfold stepTask.
    destruct (renderStep (snd entry) (snd kv) (fst kv)) as [r | e]; simpl.
    + apply thenCreate_oneFile.
    + intros p ws H. discriminate.
  - apply thenCreate_oneFile.
  - unfold packageTask. destruct (packageContext app) as [ctx | e]; simpl.
    + apply thenCreate_oneFile.
    + intros p ws H. discriminate.
Qed.

Lemma tasks_length (dir : string) (app : Value) :
  List.length (tasks dir app) = stepCount app + 2.
Proof.
  unfold tasks, stepCount, stepNamesMap, categoryTasks, stepKeys. simpl.
  rewrite !length_app, !length_map. simpl. lia.
Qed.

(** The run of [convertApp] on an actual definition, with the run of its
    tasks named. *)
Lemma convertApp_result (dir : string) (legacyApp : loc) (app : Value) (st : Store) :
  nth_error (heap st) legacyApp = Some (CData app) ->
  isNullish app = false ->
  exists ps ws err new,
    runTasks (tasks dir app) = (ps, ws, err) /\
    convertApp legacyApp dir st =
    (match err with
     | None => Ok (promiseAll ps)
     | Some e => Throw e
     end,
     mkStore (heap st ++ new) (pending st ++ ws)).
Proof.
  intros Happ Hn. destruct (convertApp_run dir legacyApp app st Happ Hn) as [new Hc].
  destruct (runTasks (tasks dir app)) as [[ps ws] err] eqn:Er.
  exists ps, ws, err, new. split; [reflexivity | exact Hc].
Qed.

(** X10.  A conversion issues at most one file write per task, that is
    at most the number of steps plus two, and once the pending jobs have
    run every file that is not the target of one of these writes is as
    it was: at most that many files are created or replaced.  A
    conversion that resolves resolves with exactly as many values as
    there are tasks, and every task has issued its write. *)
Theorem convertApp_file_count
        (dir : string) (legacyApp : loc) (app : Value) (st : Store) :
  nth_error (heap st) legacyApp = Some (CData app) ->
  isNullish app = false ->
  let run := convertApp legacyApp dir st in
  exists chains,
    pending (snd run) = pending st ++ chains /\
    List.length (written (List.concat chains)) <= stepCount app + 2 /\
    (forall d d' path,
        settles chains d d' ->
        ~ In path (written (List.concat chains)) ->
        fileAt d' path = fileAt d path) /\
    (forall vs,
        fst run = Ok (Fulfilled vs) ->
        List.length vs = stepCount app + 2 /\
        List.length (written (List.concat chains)) = stepCount app + 2).
Proof.
  intros Happ Hn run.
  destruct (convertApp_result dir legacyApp app st Happ Hn)
    as (ps & ws & err & new & Er & Hc).
  fold run in Hc. rewrite Hc. cbn [fst snd pending].
  destruct (runTasks_count _ _ _ _ (tasks_oneFile dir app) Er) as (Hle & Hps & Heq).
  rewrite tasks_length in Hle, Hps, Heq.
  exists ws. split; [reflexivity | split; [exact Hle | split]].
  - intros d d' path Hs Hout. now apply (settles_untouched ws d d').
  - intros vs Hvs. destruct err as [e |]; [discriminate |].
    injection Hvs as Hvs. apply promiseAll_fulfilled in Hvs. subst ps.
    split.
    + rewrite <- (Hps eq_refl). now rewrite length_map.
    + apply Heq; [reflexivity |]. apply Forall_forall. intros p Hp.
      apply in_map_iff in Hp as ([] & <- & _). reflexivity.
Qed.

End RunFacts.

Lemma convertApp_file_count_witness :
  exists chains,
    pending (snd (@convertApp Demo.env 0 "out" Demo.initial)) = [] ++ chains /\
    List.length (written (List.concat chains)) = 3 + 2.
Proof.
  destruct (@convertApp_file_count Demo.env "out" 0 Demo.app Demo.initial
              eq_refl eq_refl) as (chains & Hq & _ & _ & Hres).
  exists chains. split; [exact Hq |].
  exact (proj2 (Hres [tt; tt; tt; tt; tt] eq_refl)).
Defined.

(** ** Every step once *)

Lemma insertIndexed_perm {A : Type} (x : N * A) (l : list (N * A)) :
  Permutation (insertIndexed x l) (x :: l).
Proof.
  induction l as [| y l IH]; simpl; [reflexivity |].
  destruct (fst x <=? fst y)%N; [reflexivity |].
  rewrite IH. apply perm_swap.
Qed.

Lemma sortIndexed_perm {A : Type} (l : list (N * A)) : Permutation (sortIndexed l) l.
Proof.
  induction l as [| x l IH]; simpl; [reflexivity |].
  rewrite insertIndexed_perm. now constructor.
Qed.

Lemma indexedProps_filter (props : list (string * Value)) :
  map snd (indexedProps props) = filter (fun kv => isIndexKey (fst kv)) props.
Proof.
  induction props as [| [k v] props IH]; simpl; [reflexivity |].
  unfold isIndexKey at 1. simpl.
  destruct (arrayIndex k); simpl; now rewrite IH.
Qed.

Lemma filter_split_perm {A : Type} (f : A -> bool) (l : list A) :
  Permutation (filter f l ++ filter (fun x => negb (f x)) l) l.
Proof.
  induction l as [| x l IH]; simpl; [reflexivity |].
  destruct (f x); simpl.
  - now constructor.
  - rewrite <- Permutation_middle. now constructor.
Qed.

Lemma ownProps_perm (props : list (string * Value)) : Permutation (ownProps props) props.
Proof.
  unfold ownProps.
  rewrite (Permutation_map snd (sortIndexed_perm (indexedProps props))).
  rewrite indexedProps_filter. apply filter_split_perm.
Qed.

(** X11.  The steps of a category given as a mapping are visited once
    each: the keys visited are a rearrangement of the keys of the
    mapping, none lost and none repeated. *)
Theorem stepKeys_rearranged (app : Value) (v2Type : Field)
        (props : list (string * Value)) :
  fieldOr app v2Type = JObj props ->
  arrayLikeLength props = None ->
  Permutation (stepKeys app v2Type) (map (fun kv => JStr (fst kv)) props) /\
  Permutation (entries (JObj props)) (map (fun kv => (JStr (fst kv), snd kv)) props).
Proof.
  intros Hf Hlen.
  assert (He : Permutation (entries (JObj props))
                           (map (fun kv => (JStr (fst kv), snd kv)) props)).
  { unfold entries. rewrite Hlen. apply Permutation_map, ownProps_perm. }
  split; [| exact He].
  unfold stepKeys. rewrite Hf.
  rewrite (Permutation_map fst He), map_map. reflexivity.
Qed.

Lemma stepKeys_rearranged_witness :
  Permutation
    (stepKeys (JObj [("triggers", JObj [("b", JNull); ("7", JNull); ("a", JNull)])])
              f_triggers)
    [JStr "b"; JStr "7"; JStr "a"].
Proof.
  exact (proj1 (stepKeys_rearranged
                  (JObj [("triggers", JObj [("b", JNull); ("7", JNull); ("a", JNull)])])
                  f_triggers _ eq_refl eq_refl)).
Defined.

(** ** The index, its commas and its imports *)

Lemma mappingLine_join (v : string) (rest : string) :
  (("[" ++ v ++ ".key]: " ++ v ++ ",") ++ ("," ++ nl) ++ rest)%string =
  (("[" ++ v ++ ".key]: " ++ v) ++ ("," ++ "," ++ nl) ++ rest)%string.
Proof.
  rewrite !append_assoc. cbn [append]. reflexivity.
Qed.

Section IndexMore.

Context {env : Collaborators}.

(** X12.  In the index context, the section of a category with two or
    more steps starts with the mapping line of the first step followed
    by a comma and a line break: as each mapping line already ends with
    a comma, the section has two commas in a row before the line
    break. *)
Theorem index_section_doubled_comma
        (legacyApp : loc) (app : Value) (st : Store) (entry : Field * StepType)
        (k1 k2 : Value) (rest : list Value) :
  nth_error (heap st) legacyApp = Some (CData app) ->
  isNullish app = false ->
  In entry stepNamesMap ->
  stepKeys app (fst entry) = k1 :: k2 :: rest ->
  exists templateContext section,
    fst (indexContext legacyApp st) = Ok templateContext /\
    lookupOwn (upperString (dirMap (snd entry))) templateContext = Some (JStr section) /\
    startsWith (mappingLine (snd entry) k1 ++ "," ++ nl)%string section = true /\
    includes section ("," ++ "," ++ nl)%string = true.
Proof.
  intros Happ Hn He Hk.
  destruct (indexContext_run legacyApp app st Happ Hn) as [new Hrun].
  exists (indexContextOf app),
         (join ("," ++ nl)%string (map (mappingLine (snd entry)) (stepKeys app (fst entry)))).
  rewrite Hrun. split; [reflexivity |]. split.
  - destruct He as [<- | [<- | [<- | []]]]; reflexivity.
  - rewrite Hk.
    change (join ("," ++ nl)%string (map (mappingLine (snd entry)) (k1 :: k2 :: rest)))
      with (mappingLine (snd entry) k1 ++ ("," ++ nl) ++
            join ("," ++ nl) (map (mappingLine (snd entry)) (k2 :: rest)))%string.
    split.
    + rewrite <- (append_assoc (mappingLine (snd entry) k1) ("," ++ nl)%string).
      apply startsWith_append.
    + unfold mappingLine at 1. rewrite mappingLine_join.
      apply includes_append.
Qed.

End IndexMore.

Lemma index_section_doubled_comma_witness :
  exists templateContext section,
    fst (@indexContext Demo.env 0
           (mkStore [CData (JObj [("triggers", JObj [("a", JNull); ("b", JNull)])])] []))
    = Ok templateContext /\
    lookupOwn "TRIGGERS" templateContext = Some (JStr section) /\
    includes section ("," ++ "," ++ nl)%string = true.
Proof.
  destruct (@index_section_doubled_comma Demo.env 0
              (JObj [("triggers", JObj [("a", JNull); ("b", JNull)])])
              (mkStore [CData (JObj [("triggers", JObj [("a", JNull); ("b", JNull)])])] [])
              (f_triggers, trigger) (JStr "a") (JStr "b") []
              eq_refl eq_refl (or_introl eq_refl) eq_refl)
    as (ctx & section & H1 & H2 & _ & H3).
  exists ctx, section. split; [exact H1 | split; [exact H2 | exact H3]].
Defined.

(** ** A definition that is missing, or has no general section *)

Lemma runTasks_prefix (a b : list Task) (ps : list (Promise unit)) (ws : list Chain)
      (err : option Error) :
  (forall t, In t a -> exists p w, t = Ok (p, w)) ->
  runTasks (a ++ b) = (ps, ws, err) ->
  forall p w, In (Ok (p, w)) a -> incl w ws.
Proof.
  intros Hall Hrun p w Hin.
  destruct (runTasks_scheduled a Hall) as (psa & wsa & Ea).
  rewrite runTasks_app, Ea in Hrun.
  destruct (runTasks b) as [[ps' ws'] err']. injection Hrun as _ <- _.
  apply incl_appl. exact (runTasks_incl a psa wsa Ea p w Hin).
Qed.

Section EdgeFacts.

Context {env : Collaborators}.

Lemma renderPackageJson_run (legacyApp : loc) (app : Value) (st : Store) :
  nth_error (heap st) legacyApp = Some (CData app) ->
  renderPackageJson legacyApp st =
  (match packageContext app with
   | Ok templateContext => Ok (renderTemplate packageTemplateFile templateContext)
   | Throw e => Throw e
   end, st).
Proof.
  intros Happ. unfold renderPackageJson.
  unfold bindM at 1.
  rewrite (readData_at st (heap st) [] legacyApp app (eq_sym (app_nil_r _)) Happ).
  unfold bindM, lift. destruct (packageContext app); reflexivity.
Qed.

Lemma packageContext_ok_iff (app : Value) :
  isNullish app = false ->
  (exists templateContext, packageContext app = Ok templateContext) <->
  isNullish (fieldOr app f_general) = false /\
  exists name, kebabCase (fieldOr (fieldOr app f_general) f_title) = Ok name.
Proof.
  intros Hn. unfold packageContext. rewrite (getField_fieldOr app f_general Hn).
  cbn [bind]. destruct (isNullish (fieldOr app f_general)) eqn:Hg.
  - destruct (getField_nullish _ f_title Hg) as [e ->]. cbn [bind].
    split; [intros [c H]; discriminate | intros [H _]; discriminate].
  - rewrite (getField_fieldOr _ f_title Hg), (getField_fieldOr _ f_description Hg).
    cbn [bind]. destruct (kebabCase _) as [name | e]; cbn [bind].
    + split; [intros _; split; [reflexivity | eauto] | eauto].
    + split; [intros [c H]; discriminate | intros [_ [name H]]; discriminate].
Qed.

(** X13.  A definition that is [null] or [undefined] makes the
    conversion throw a type error before any task is started, so that no
    file-system work is queued and no file is ever written: the first
    read of a step category fails.  The index and the manifest throw
    likewise. *)
Theorem convertApp_nullish_definition
        (dir : string) (legacyApp : loc) (app : Value) (st : Store) :
  nth_error (heap st) legacyApp = Some (CData app) ->
  isNullish app = true ->
  let failure (name : string) :=
    TypeError ("Cannot read property '" ++ name ++ "' of " ++ typeName app)%string in
  fst (convertApp legacyApp dir st) = Throw (failure "triggers") /\
  pending (snd (convertApp legacyApp dir st)) = pending st /\
  fst (renderIndex legacyApp st) = Throw (failure "triggers") /\
  fst (writeIndex legacyApp dir st) = Throw (failure "triggers") /\
  fst (renderPackageJson legacyApp st) = Throw (failure "general") /\
  fst (writePackageJson legacyApp dir st) = Throw (failure "general").
Proof.
  intros Happ Hn failure.
  assert (Hread : forall extra d,
             readData legacyApp (mkStore (heap st ++ extra) d) =
             (Ok app, mkStore (heap st ++ extra) d)).
  { intros extra d.
    exact (readData_at (mkStore (heap st ++ extra) d) (heap st) extra legacyApp app
             eq_refl Happ). }
  assert (Hget : forall f, getField app f =
                           Throw (failure (fieldName f))).
  { intros f. destruct app; try discriminate; reflexivity. }
  assert (Hidx : fst (renderIndex legacyApp st) = Throw (failure "triggers")).
  { unfold renderIndex, indexContext.
    unfold bindM at 1. unfold bindM at 1. unfold alloc at 1.
    unfold bindM at 1. unfold alloc at 1. cbn [heap pending].
    unfold stepNamesMap. cbn [forEachM].
    unfold bindM at 1. unfold bindM at 1. unfold indexCategory.
    unfold bindM at 1. unfold alloc at 1. cbn [heap pending fst snd].
    unfold bindM at 1. rewrite <- !app_assoc. rewrite Hread.
    unfold bindM at 1. unfold lift at 1. rewrite Hget. reflexivity. }
  repeat split.
  - unfold convertApp. unfold bindM at 1. unfold alloc at 1. cbn [heap pending].
    unfold stepNamesMap. cbn [forEachM].
    unfold bindM at 1. unfold bindM at 1. unfold scheduleCategory.
    unfold bindM at 1. cbn [fst snd]. rewrite Hread.
    unfold bindM at 1. unfold lift at 1. rewrite Hget. reflexivity.
  - unfold convertApp. unfold bindM at 1. unfold alloc at 1. cbn [heap pending].
    unfold stepNamesMap. cbn [forEachM].
    unfold bindM at 1. unfold bindM at 1. unfold scheduleCategory.
    unfold bindM at 1. cbn [fst snd]. rewrite Hread.
    unfold bindM at 1. unfold lift at 1. rewrite Hget. reflexivity.
  - exact Hidx.
  - unfold writeIndex. unfold bindM at 1.
    destruct (renderIndex legacyApp st) as [[p | e] st']; simpl in Hidx;
      [discriminate |]. simpl. injection Hidx as ->. reflexivity.
  - rewrite (renderPackageJson_run legacyApp app st Happ). unfold packageContext.
    rewrite Hget. reflexivity.
  - rewrite (writePackageJson_run dir legacyApp app st Happ). unfold packageTask, packageContext.
    rewrite Hget. reflexivity.
Qed.

(** X14.  The manifest of an actual definition can be rendered exactly
    when the definition has a [general] section and the title of that
    section can be kebab-cased.  Without a [general] section the manifest
    throws a type error for the title, and whenever the manifest throws
    the conversion throws too instead of returning a promise. *)
Theorem renderPackageJson_needs_general
        (dir : string) (legacyApp : loc) (app : Value) (st : Store) :
  nth_error (heap st) legacyApp = Some (CData app) ->
  isNullish app = false ->
  let general := fieldOr app f_general in
  ((exists p, fst (renderPackageJson legacyApp st) = Ok p) <->
   isNullish general = false /\
   exists name, kebabCase (fieldOr general f_title) = Ok name) /\
  (isNullish general = true ->
   fst (renderPackageJson legacyApp st) =
   Throw (TypeError ("Cannot read property 'title' of " ++ typeName general)%string)) /\
  (forall e, fst (renderPackageJson legacyApp st) = Throw e ->
             exists e', fst (convertApp legacyApp dir st) = Throw e').
Proof.
  intros Happ Hn general.
  rewrite (renderPackageJson_run legacyApp app st Happ). cbn [fst].
  split; [| split].
  - pose proof (packageContext_ok_iff app Hn) as Hiff. unfold general.
    destruct (packageContext app) as [ctx | e]; split.
    + intros _. apply Hiff. eauto.
    + eauto.
    + intros [p H]; discriminate.
    + intros H. apply Hiff in H as [c H]. discriminate.
  - intros Hg. unfold packageContext. rewrite (getField_fieldOr app f_general Hn).
    cbn [bind]. fold general. destruct general; try discriminate; reflexivity.
  - intros e He.
    assert (Hin : In (Throw e) (tasks dir app)).
    { unfold tasks. apply in_or_app. right. right. left. unfold packageTask.
      destruct (packageContext app) as [ctx | e0]; [discriminate |].
      injection He as ->. reflexivity. }
    destruct (runTasks_throws _ _ Hin) as (ps & ws & e' & Er).
    exists e'. rewrite (convertApp_outcome dir legacyApp app st Happ Hn), Er.
    reflexivity.
Qed.

(** Whatever the interleaving, once a pending chain that makes the
    directory of a file and writes the file has run, the directory is
    there and the file holds what one of the jobs on its path wrote. *)
Lemma fileChain_settles (chains : list Chain) (d d' : Disk) (destFile content : string) :
  In (fileChain destFile content) chains ->
  settles chains d d' ->
  In (pathDirname destFile) (dirs d') /\
  exists last,
    fileAt d' destFile = Some last /\
    In (WriteFile destFile last) (List.concat chains).
Proof.
  intros Hin Hs.
  assert (Hjobs : forall j, In j (fileChain destFile content) ->
                            In j (List.concat chains)).
  { intros j Hj. apply in_concat. eauto. }
  split.
  - apply (settles_dirs chains d d' _ Hs). apply Hjobs. now left.
  - destruct (settles_written chains d d' destFile Hs) as (last & Hl & Hf).
    + apply written_In. exists content. apply Hjobs. right. now left.
    + eauto.
Qed.

(** X15.  Nothing is cancelled or rolled back.  When every step of the
    definition renders its context, so that every step task is started,
    the chain of each step whose template renders and whose write
    succeeds is pending after the call, and so is that of the index,
    whatever [convertApp] does afterwards: resolve, reject, or throw
    because the manifest cannot be built.  Once the pending chains have
    run, the directory of each such file exists and the file holds what
    one of the jobs on its path wrote. *)
Theorem convertApp_no_rollback
        (dir : string) (legacyApp : loc) (app : Value) (st : Store) :
  nth_error (heap st) legacyApp = Some (CData app) ->
  isNullish app = false ->
  (forall entry kv,
      In entry stepNamesMap ->
      In kv (entries (fieldOr app (fst entry))) ->
      exists templateContext, stepContext (snd kv) (fst kv) = Ok templateContext) ->
  exists chains,
    pending (snd (convertApp legacyApp dir st)) = pending st ++ chains /\
    let survives (destFile content : string) :=
      In (fileChain destFile content) chains /\
      forall d d',
        settles chains d d' ->
        In (pathDirname destFile) (dirs d') /\
        exists last,
          fileAt d' destFile = Some last /\
          In (WriteFile destFile last) (List.concat chains) in
    (forall entry kv content,
        In entry stepNamesMap ->
        In kv (entries (fieldOr app (fst entry))) ->
        let destFile := pathJoin dir (stepFileName (snd entry) (fst kv)) in
        renderStep (snd entry) (snd kv) (fst kv) = Ok (Fulfilled content) ->
        ensureDir (pathDirname destFile) = Ok tt ->
        writeFile destFile content = Ok tt ->
        survives destFile content) /\
    (forall content,
        let destFile := pathJoin dir "index.js" in
        fst (renderIndex legacyApp st) = Ok (Fulfilled content) ->
        ensureDir (pathDirname destFile) = Ok tt ->
        writeFile destFile content = Ok tt ->
        survives destFile content).
Proof.
  intros Happ Hn Hsteps.
  destruct (convertApp_result dir legacyApp app st Happ Hn)
    as (ps & ws & err & new & Er & Hc).
  exists ws. split; [rewrite Hc; reflexivity |]. clear Hc.
  unfold tasks in Er.
  change [indexTask dir app; packageTask dir app]
    with ([indexTask dir app] ++ [packageTask dir app]) in Er.
  rewrite app_assoc in Er.
  assert (Hall : forall t,
             In t (flat_map (categoryTasks dir app) stepNamesMap ++ [indexTask dir app]) ->
             exists p w, t = Ok (p, w)).
  { intros t Hin. apply in_app_or in Hin as [Hin | [<- | []]].
    - apply in_flat_map in Hin as (entry & He & Hin). unfold categoryTasks in Hin.
      apply in_map_iff in Hin as (kv & <- & Hkv).
      destruct (Hsteps entry kv He Hkv) as [ctx Hctx].
      unfold stepTask, renderStep. rewrite Hctx. cbn [bind].
      destruct (thenCreate _ _ _) as [p w]. eauto.
    - unfold indexTask. destruct (thenCreate _ _ _) as [p w]. eauto. }
  pose proof (runTasks_prefix _ _ _ _ _ Hall Er) as Hincl.
  cbv zeta. split.
  - intros entry kv content He Hkv Hr Hd Hw.
    set (destFile := pathJoin dir (stepFileName (snd entry) (fst kv))) in *.
    assert (Hin : In (fileChain destFile content) ws).
    { apply (Hincl (Fulfilled tt) [fileChain destFile content]); [| now left].
      apply in_or_app. left. apply in_flat_map. exists entry. split; [exact He |].
      unfold categoryTasks. apply in_map_iff. exists kv. split; [| exact Hkv].
      unfold stepTask. rewrite Hr. cbn [bind thenCreate]. unfold fileOutcome.
      fold destFile. rewrite Hd, Hw. reflexivity. }
    split; [exact Hin |]. intros d d' Hs.
    exact (fileChain_settles ws d d' destFile content Hin Hs).
  - intros content Hr Hd Hw.
    set (destFile := pathJoin dir "index.js") in *.
    assert (Hin : In (fileChain destFile content) ws).
    { apply (Hincl (Fulfilled tt) [fileChain destFile content]); [| now left].
      apply in_or_app. right. left.
      unfold renderIndex, bindM in Hr.
      destruct (indexContext_run legacyApp app st Happ Hn) as [new' Hrun].
      rewrite Hrun in Hr. cbn [ret fst] in Hr. injection Hr as Hr.
      unfold indexTask. rewrite Hr. cbn [thenCreate]. unfold fileOutcome.
      fold destFile. rewrite Hd, Hw. reflexivity. }
    split; [exact Hin |]. intros d d' Hs.
    exact (fileChain_settles ws d d' destFile content Hin Hs).
Qed.

End EdgeFacts.

Lemma convertApp_nullish_definition_witness :
  fst (@convertApp Demo.env 0 "out" (mkStore [CData JNull] [])) =
  Throw (TypeError "Cannot read property 'triggers' of null") /\
  pending (snd (@convertApp Demo.env 0 "out" (mkStore [CData JNull] []))) = [].
Proof.
  destruct (@convertApp_nullish_definition Demo.env "out" 0 JNull
              (mkStore [CData JNull] []) eq_refl eq_refl) as (H1 & H2 & _).
  split; [exact H1 | exact H2].
Defined.

Lemma renderPackageJson_needs_general_witness :
  fst (@renderPackageJson Demo.env 0 (mkStore [CData Demo.appWithoutGeneral] [])) =
  Throw (TypeError "Cannot read property 'title' of undefined").
Proof.
  exact (proj1 (proj2 (@renderPackageJson_needs_general Demo.env "out" 0
                         Demo.appWithoutGeneral
                         (mkStore [CData Demo.appWithoutGeneral] [])
                         eq_refl eq_refl))
               eq_refl).
Defined.

Lemma convertApp_no_rollback_witness :
  let run := @convertApp Demo.env 0 "out" (mkStore [CData Demo.appWithoutGeneral] []) in
  (exists e, fst run = Throw e) /\
  exists content,
    fileAt (performAll (List.concat (pending (snd run))) (mkDisk [] []))
           "out/triggers/contact.js" = Some content.
Proof.
  assert (Hsteps : forall entry kv,
             In entry stepNamesMap ->
             In kv (entries (fieldOr Demo.appWithoutGeneral (fst entry))) ->
             exists c, @stepContext Demo.env (snd kv) (fst kv) = Ok c).
  { intros entry kv [<- | [<- | [<- | []]]] Hkv; cbv in Hkv; try contradiction.
    destruct Hkv as [<- | []]. eexists. reflexivity. }
  split; [eexists; reflexivity |].
  destruct (@convertApp_no_rollback Demo.env "out" 0 Demo.appWithoutGeneral
              (mkStore [CData Demo.appWithoutGeneral] []) eq_refl eq_refl Hsteps)
    as (chains & Hq & Hstep & _).
  destruct (Hstep (f_triggers, trigger)
                  (JStr "contact", Demo.step [Demo.field "id" "Id"])
                  _ (or_introl eq_refl) (or_introl eq_refl) eq_refl eq_refl eq_refl)
    as [_ Hs].
  destruct (Hs (mkDisk [] []) _ (settles_sequential chains _)) as (_ & last & Hf & _).
  exists last. rewrite Hq. exact Hf.
Defined.

(** ** The index and the step files agree *)

Section Agreement.

Context {env : Collaborators}.

Lemma importLine_requires (v3Type : StepType) (name : Value) :
  includes (importLine v3Type name)
           ("require('./" ++ (dirMap v3Type ++ "/" ++ snakeCase name) ++ "')")%string = true.
Proof.
  unfold importLine.
  set (requireFile := (dirMap v3Type ++ "/" ++ snakeCase name)%string).
  assert (E : ("const " ++ varName v3Type name ++ " = require('./" ++ requireFile ++ "');")%string
              = (("const " ++ varName v3Type name ++ " = ") ++
                 ("require('./" ++ requireFile ++ "')") ++ ";")%string).
  { rewrite !append_assoc. reflexivity. }
  rewrite E. apply includes_append.
Qed.

Lemma imports_listed (app : Value) (entry : Field * StepType) (key : Value) :
  In entry stepNamesMap ->
  In key (stepKeys app (fst entry)) ->
  exists requires,
    lookupOwn "REQUIRES" (indexContextOf app) = Some (JStr requires) /\
    includes requires (importLine (snd entry) key) = true.
Proof.
  intros He Hk. eexists. split; [reflexivity |].
  apply includes_join.
  destruct He as [<- | [<- | [<- | []]]]; cbn [fst snd] in *.
  - apply in_or_app. left. now apply in_map.
  - apply in_or_app. right. apply in_or_app. left. now apply in_map.
  - apply in_or_app. right. apply in_or_app. right. now apply in_map.
Qed.

(** X16.  The index and the step files agree.  After a conversion that
    resolved, the chains it left pending write, for every step of the
    definition, a file under the output directory at the very path that
    the index imports with [.js] added, so that the file exists once
    the chains have run; and the [REQUIRES] entry of the index context
    imports that path. *)
Theorem convertApp_requires_written
        (dir : string) (legacyApp : loc) (app : Value) (st : Store) (vs : list unit) :
  nth_error (heap st) legacyApp = Some (CData app) ->
  isNullish app = false ->
  fst (convertApp legacyApp dir st) = Ok (Fulfilled vs) ->
  forall entry key,
    In entry stepNamesMap ->
    In key (stepKeys app (fst entry)) ->
    let requireFile := (dirMap (snd entry) ++ "/" ++ snakeCase key)%string in
    (exists chains,
        pending (snd (convertApp legacyApp dir st)) = pending st ++ chains /\
        forall d d',
          settles chains d d' ->
          exists content,
            fileAt d' (pathJoin dir (requireFile ++ ".js")%string) = Some content) /\
    (exists templateContext requires,
        fst (indexContext legacyApp st) = Ok templateContext /\
        lookupOwn "REQUIRES" templateContext = Some (JStr requires) /\
        includes requires ("require('./" ++ requireFile ++ "')")%string = true).
Proof.
  intros Happ Hn Hres entry key He Hk requireFile. split.
  - destruct (convertApp_result dir legacyApp app st Happ Hn)
      as (ps & ws & err & new & Er & Hc).
    rewrite Hc in Hres |- *. cbn [fst snd pending] in *.
    destruct err as [e |]; [discriminate |]. injection Hres as Hres.
    apply promiseAll_fulfilled in Hres. subst ps.
    pose proof (paired_fulfilled _ _ (runTasks_none _ _ _ Er)) as Hall.
    rewrite Forall_forall in Hall.
    unfold stepKeys in Hk. apply in_map_iff in Hk as (kv & <- & Hkv).
    pose proof (stepTask_in_tasks dir app entry kv He Hkv) as Hin.
    destruct (Hall _ Hin) as [w Hw].
    destruct (stepTask_fulfilled _ _ _ _ Hw) as (content & _ & _ & _ & -> & _).
    exists ws. split; [reflexivity |]. intros d d' Hs.
    rewrite Hw in Hin.
    assert (Hchain : In (fileChain (pathJoin dir (requireFile ++ ".js")%string) content) ws).
    { apply (runTasks_incl _ _ _ Er _ _ Hin).
      unfold stepFileName, requireFile. rewrite !append_assoc. now left. }
    destruct (fileChain_settles ws d d' _ content Hchain Hs) as (_ & last & Hf & _).
    eauto.
  - destruct (indexContext_run legacyApp app st Happ Hn) as [new Hrun].
    destruct (imports_listed app entry key He Hk) as (requires & Hl & Hi).
    exists (indexContextOf app), requires. rewrite Hrun.
    split; [reflexivity | split; [exact Hl |]].
    apply includes_trans with (importLine (snd entry) key); [exact Hi |].
    apply importLine_requires.
Qed.

End Agreement.

Lemma convertApp_requires_written_witness :
  let run := @convertApp Demo.env 0 "out" Demo.initial in
  (exists content,
      fileAt (performAll (List.concat (pending (snd run))) (mkDisk [] []))
             "out/searches/person.js" = Some content) /\
  (exists templateContext requires,
      fst (@indexContext Demo.env 0 Demo.initial) = Ok templateContext /\
      lookupOwn "REQUIRES" templateContext = Some (JStr requires) /\
      includes requires "require('./searches/person')" = true).
Proof.
  destruct (@convertApp_requires_written Demo.env "out" 0 Demo.app Demo.initial
              [tt; tt; tt; tt; tt] eq_refl eq_refl eq_refl
              (f_searches, search) (JStr "person")
              (or_intror (or_introl eq_refl)) (or_introl eq_refl))
    as [(chains & Hq & Hs) Hreq].
  split; [| exact Hreq].
  destruct (Hs (mkDisk [] []) _ (settles_sequential chains _)) as [content Hf].
  exists content. cbv zeta. rewrite Hq. exact Hf.
Defined.
